(** * Verification of the scene matcher (src/smart_matcher.py)

    A shallow embedding of [SmartMatcher]: the character context tracker
    ([extract_character_names], [get_search_pool]), the scorer, the usage
    ledger and the selector ([find_best_match_with_rotation]), the matching
    loop of [match_audio_to_frames], [build_translation_map] and
    [normalize_vector].

    Conventions of the embedding.
    - Scores are exact rationals ([Q]): numpy's floating-point dot products
      and the [+= 0.05] are idealised, rounding is not modelled.
    - Frame indices, pool positions and chunk indices are [nat]; the
      last-used positions are [Z] because the code uses the sentinel [-999].
    - [self] is the record [matcher]; every method takes it and returns the
      updated one.  A Python exception is an [outcome] that carries the
      exception together with the state at the moment it is raised.
    - The two dictionaries of the ledger are [gmap]s keyed by frame name;
      [character_map] and [name_translations] are association lists, since
      the code iterates over them in insertion order.
    - [str.lower] and the word-boundary regular-expression search are
      library code: they are Section variables of the embedding.
    - [np.argsort] fixes no order on equal scores: the selector runs on the
      order of numpy's insertion sort, and what is stated of the ranking is
      stated for every order [np.argsort] may return.
    - The rows of the embedding array are rational vectors; the norm test of
      line 354 is exact on their sum of squares, and the normalisation of a
      row, a division by a square root, is a Section variable. *)

From Stdlib Require Import ZArith QArith Qreals Reals Lra Lia List Permutation
  Sorted.
From Stdlib Require Import Ascii String.
From Stdlib Require Lqa.
From stdpp Require Import base option list gmap strings sorting.

(** ** Exceptions and outcomes *)

Inductive exn : Type :=
  | IndexError                (* list / array index out of range *)
  | ValueError_argmax_empty   (* np.argmax of an empty sequence *)
  | ValueError_weights_total. (* random.choices: total of weights <= 0 *)

Definition result (A : Type) : Type := (exn + A)%type.

Definition rbind {A B} (r : result A) (k : A → result B) : result B :=
  match r with
  | inl e => inl e
  | inr a => k a
  end.

Notation "'let!' x ':=' r 'in' k" := (rbind r (fun x => k))
  (at level 10, x name, r at level 100, k at level 200, only parsing).

(** Python's [l[i]] on a list, for [i >= 0]. *)
Definition index {A} (l : list A) (i : nat) : result A :=
  match l !! i with
  | Some x => inr x
  | None => inl IndexError
  end.

(** ** The matcher object *)

Record matcher : Type := Matcher {
  active_character : option string;
  frame_usage_count : gmap string nat;
  frame_last_used_at : gmap string Z;
  last_selected_frame_idx : option nat;
  name_translations : list (string * string);
}.

(** [SmartMatcher.__init__] *)
Definition max_frame_usage : nat := 3.
Definition min_frame_cooldown : nat := 20.
Definition top_candidates_pool : nat := 5.
Definition continuity_bonus : Q := 0.05%Q.
Definition scene_continuity_window : Z := 48.

Definition init_matcher : matcher :=
  {| active_character := None;
     frame_usage_count := ∅;
     frame_last_used_at := ∅;
     last_selected_frame_idx := None;
     name_translations := [] |}.

Inductive outcome (A : Type) : Type :=
  | Ok (a : A) (s : matcher)
  | Raise (e : exn) (s : matcher).
Arguments Ok {A} a s.
Arguments Raise {A} e s.

(** ** Scorer: lines 203-217 of [find_best_match_with_rotation] *)

Fixpoint dot (u v : list Q) : Q :=
  match u, v with
  | x :: u', y :: v' => (x * y + dot u' v')%Q
  | _, _ => 0%Q
  end.

(** [base_scores = pool_embeddings @ text_emb] *)
Definition base_scores (text_emb : list Q) (pool_embeddings : list (list Q))
  : list Q :=
  map (fun e => dot e text_emb) pool_embeddings.

(** [dist = abs(real_idx - last)] and the test [5 < dist < window]. *)
Definition dist (real_idx last : nat) : Z :=
  Z.abs (Z.of_nat real_idx - Z.of_nat last).

Definition in_continuity_window (real_idx last : nat) : bool :=
  (5 <? dist real_idx last)%Z && (dist real_idx last <? scene_continuity_window)%Z.

(** The loop [for i, real_idx in enumerate(pool_indices)]; [i] is the
    running position.  [final_scores[i] += bonus] raises when [i] is not a
    position of the score array. *)
Fixpoint bonus_loop (last : nat) (i : nat) (pool_indices : list nat)
    (final_scores : list Q) : result (list Q) :=
  match pool_indices with
  | [] => inr final_scores
  | real_idx :: rest =>
      if in_continuity_window real_idx last then
        let! x := index final_scores i in
        bonus_loop last (S i) rest (<[i := (x + continuity_bonus)%Q]> final_scores)
      else bonus_loop last (S i) rest final_scores
  end.

Definition final_scores_of (last_selected : option nat) (text_emb : list Q)
    (pool_embeddings : list (list Q)) (pool_indices : list nat)
  : result (list Q) :=
  let base := base_scores text_emb pool_embeddings in
  match last_selected with
  | Some last => bonus_loop last 0 pool_indices base
  | None => inr base
  end.

(** ** Usage ledger: lines 219-243 *)

(** [max(5, min(20, pool_size // 10))] *)
Definition dynamic_cooldown (pool_size : nat) : nat :=
  Nat.max 5 (Nat.min 20 (pool_size / 10)).

Definition usage_count_of (s : matcher) (frame_name : string) : nat :=
  default 0%nat (frame_usage_count s !! frame_name).

Definition last_used_of (s : matcher) (frame_name : string) : Z :=
  default (-999)%Z (frame_last_used_at s !! frame_name).

(** The two [continue] tests of the candidate loop: [true] when the frame
    is appended to [candidates]. *)
Definition passes_filter (s : matcher) (frame_name : string)
    (current_chunk_idx pool_size : nat) : bool :=
  if (max_frame_usage <=? usage_count_of s frame_name)%nat then false
  else if (Z.of_nat current_chunk_idx - last_used_of s frame_name
           <? Z.of_nat (dynamic_cooldown pool_size))%Z then false
  else true.

(** ** Ranking: [np.argsort(final_scores)[::-1]] (line 227)

    [np.argsort] promises the positions in an order of ascending score and
    nothing on the order of equal scores: its default kind is not stable.
    [argsort] is the straight insertion sort numpy's generic quicksort runs
    on arrays of at most 17 elements (a position is inserted after the
    positions of equal score already placed); on longer arrays numpy
    partitions first and leaves equal scores in another order.  [argsort]
    is one admissible result at every length; what is stated of the order
    of ties is stated for every admissible result (see
    [ascending_argsort]). *)

Definition score_at (scores : list Q) (i : nat) : Q :=
  default 0%Q (scores !! i).

Fixpoint insert_idx (scores : list Q) (x : nat) (l : list nat) : list nat :=
  match l with
  | [] => [x]
  | y :: l' =>
      if Qle_bool (score_at scores y) (score_at scores x)
      then y :: insert_idx scores x l'
      else x :: l
  end.

Definition argsort (scores : list Q) : list nat :=
  foldl (fun acc i => insert_idx scores i acc) [] (seq 0 (length scores)).

Definition sorted_indices (final_scores : list Q) : list nat :=
  rev (argsort final_scores).

(** ** Candidate loop: lines 228-253 *)

(** A frame file: [name] is [Path.name], [scene_number] is the scene id the
    code reads from the file name, [int(stem.split('_')[1])]. *)
Record path : Type := Path {
  name : string;
  scene_number : Z;
}.

Record candidate : Type := Candidate {
  real_idx : nat;
  score : Q;
  frame_name : string;
}.

Fixpoint candidates_loop (s : matcher) (pool_indices : list nat)
    (frame_files : list path) (final_scores : list Q)
    (current_chunk_idx pool_size : nat)
    (sorted : list nat) (candidates : list candidate)
  : result (list candidate) :=
  match sorted with
  | [] => inr candidates
  | pool_idx :: rest =>
      let! ridx := index pool_indices pool_idx in
      let! f := index frame_files ridx in
      if passes_filter s (name f) current_chunk_idx pool_size then
        let! sc := index final_scores pool_idx in
        let candidates' := candidates ++ [Candidate ridx sc (name f)] in
        if (top_candidates_pool <=? length candidates')%nat
        then inr candidates'
        else candidates_loop s pool_indices frame_files final_scores
               current_chunk_idx pool_size rest candidates'
      else candidates_loop s pool_indices frame_files final_scores
             current_chunk_idx pool_size rest candidates
  end.

(** ** [random.choices(population, weights=weights)[0]] (CPython 3.9+)

    The draw [r] stands for the value of [random()], a number of [[0, 1)].
    [cum_weights = list(accumulate(weights))], [total = cum_weights[-1]],
    a [ValueError] when [total <= 0], then
    [population[bisect(cum_weights, r * total, 0, n - 1)]]. *)

Definition Qlt_bool (x y : Q) : bool := negb (Qle_bool y x).

Fixpoint accumulate_from (acc : Q) (ws : list Q) : list Q :=
  match ws with
  | [] => []
  | w :: ws' => (acc + w)%Q :: accumulate_from (acc + w)%Q ws'
  end.

Definition accumulate (ws : list Q) : list Q :=
  match ws with
  | [] => []
  | w :: ws' => w :: accumulate_from w ws'
  end.

(** [bisect_right(a, x, lo, hi)]: [while lo < hi: mid = (lo + hi) // 2; if
    x < a[mid]: hi = mid else: lo = mid + 1].  The interval shrinks at every
    turn, so [hi - lo] turns are enough. *)
Fixpoint bisect_loop (fuel : nat) (a : list Q) (x : Q) (lo hi : nat) : nat :=
  match fuel with
  | O => lo
  | S fuel' =>
      if (lo <? hi)%nat then
        let mid := ((lo + hi) / 2)%nat in
        if Qlt_bool x (score_at a mid)
        then bisect_loop fuel' a x lo mid
        else bisect_loop fuel' a x (S mid) hi
      else lo
  end.

Definition bisect (a : list Q) (x : Q) (lo hi : nat) : nat :=
  bisect_loop (hi - lo) a x lo hi.

Definition random_choices {A} (population : list A) (weights : list Q)
    (r : Q) : result A :=
  let cum_weights := accumulate weights in
  let n := length population in
  let! total := index cum_weights (length cum_weights - 1) in
  if Qle_bool total 0 then inl ValueError_weights_total
  else index population (bisect cum_weights (r * total)%Q 0 (n - 1)).

(** ** [np.argmax]: the first position of the maximum *)

Fixpoint argmax_from (best_i : nat) (best : Q) (i : nat) (l : list Q) : nat :=
  match l with
  | [] => best_i
  | x :: l' =>
      if Qlt_bool best x then argmax_from i x (S i) l'
      else argmax_from best_i best (S i) l'
  end.

Definition argmax (l : list Q) : result nat :=
  match l with
  | [] => inl ValueError_argmax_empty
  | x :: l' => inr (argmax_from 0 x 1 l')
  end.

(** ** The selector: [find_best_match_with_rotation] *)

(** [weights = [c['score'] for c in candidates]] (line 258) *)
Definition weights (candidates : list candidate) : list Q :=
  map score candidates.

(** Lines 226-253: the candidates of the current chunk. *)
Definition candidates_of (s : matcher) (pool_indices : list nat)
    (frame_files : list path) (final_scores : list Q)
    (current_chunk_idx : nat) : result (list candidate) :=
  candidates_loop s pool_indices frame_files final_scores current_chunk_idx
    (length pool_indices) (sorted_indices final_scores) [].

(** Lines 255-267: the winner among the candidates, or the fallback. *)
Definition choose (pool_indices : list nat) (frame_files : list path)
    (final_scores : list Q) (candidates : list candidate) (r : Q)
  : result candidate :=
  match candidates with
  | _ :: _ => random_choices candidates (weights candidates) r
  | [] =>
      let! best_idx_raw := argmax final_scores in
      let! ridx := index pool_indices best_idx_raw in
      let! sc := index final_scores best_idx_raw in
      let! f := index frame_files ridx in
      inr (Candidate ridx sc (name f))
  end.

(** Lines 269-273: the state update. *)
Definition commit (s : matcher) (chosen : candidate) (current_chunk_idx : nat)
  : matcher :=
  {| active_character := active_character s;
     frame_usage_count :=
       <[frame_name chosen := S (usage_count_of s (frame_name chosen))]>
         (frame_usage_count s);
     frame_last_used_at :=
       <[frame_name chosen := Z.of_nat current_chunk_idx]>
         (frame_last_used_at s);
     last_selected_frame_idx := Some (real_idx chosen);
     name_translations := name_translations s |}.

Definition select_candidate (s : matcher) (text_emb : list Q)
    (pool_embeddings : list (list Q)) (pool_indices : list nat)
    (frame_files : list path) (current_chunk_idx : nat) (r : Q)
  : result candidate :=
  let! final_scores :=
    final_scores_of (last_selected_frame_idx s) text_emb pool_embeddings
      pool_indices in
  let! candidates :=
    candidates_of s pool_indices frame_files final_scores current_chunk_idx in
  choose pool_indices frame_files final_scores candidates r.

Definition find_best_match_with_rotation (s : matcher) (text_emb : list Q)
    (pool_embeddings : list (list Q)) (pool_indices : list nat)
    (frame_files : list path) (current_chunk_idx : nat) (r : Q)
  : outcome (nat * Q) :=
  match select_candidate s text_emb pool_embeddings pool_indices frame_files
          current_chunk_idx r with
  | inl e => Raise e s
  | inr chosen =>
      Ok (real_idx chosen, score chosen) (commit s chosen current_chunk_idx)
  end.

(** ** The character context tracker and the matching loop *)

(** [if self.active_character:] is Python truthiness: [None] and the empty
    string both count as no active character. *)
Definition truthy (c : option string) : bool :=
  match c with
  | Some x => negb (String.eqb x "")
  | None => false
  end.

(** The character map, a dictionary from a character name to its scene
    ids, as the list of its items. *)
Definition character_map_get (character_map : list (string * list Z))
    (k : string) : list Z :=
  match list_find (fun kv => kv.1 = k) character_map with
  | Some (_, (_, scenes)) => scenes
  | None => []
  end.

(** The context labels, the f-strings of [get_search_pool]. *)
Definition label_switch (c : string) : string := "смена контекста -> " +:+ c.
Definition label_confirm (c : string) : string := "подтверждение -> " +:+ c.
Definition label_hold (c : string) : string :=
  "удержание контекста (" +:+ c +:+ ")".
Definition label_no_context : string := "без контекста (общий поиск)".
Definition pool_empty_fallback : string := " (пул пуст -> fallback)".

Definition set_active_character (s : matcher) (c : option string) : matcher :=
  {| active_character := c;
     frame_usage_count := frame_usage_count s;
     frame_last_used_at := frame_last_used_at s;
     last_selected_frame_idx := last_selected_frame_idx s;
     name_translations := name_translations s |}.

Record match_result : Type := MatchResult {
  audio_text : string;
  frame_file : path;
  frame_index : nat;
  similarity_score : Q;
  chunk_index : nat;
  search_context : string;
  search_pool_size : nat;
}.

(** [frame_embeddings[pool_indices]]: numpy raises on a position out of
    range. *)
Fixpoint gather {A} (a : list A) (indices : list nat) : result (list A) :=
  match indices with
  | [] => inr []
  | i :: rest =>
      let! x := index a i in
      let! xs := gather a rest in
      inr (x :: xs)
  end.

(** Lines 367-373: [scene_id_to_idx] and [all_scene_ids], the keys of the
    dictionary in the order of their first insertion. *)
Fixpoint build_scene_index (idx : nat) (frame_files : list path)
    (acc : gmap Z nat * list Z) : gmap Z nat * list Z :=
  match frame_files with
  | [] => acc
  | f :: rest =>
      let keys := if decide (is_Some (acc.1 !! scene_number f)) then acc.2
                  else acc.2 ++ [scene_number f] in
      build_scene_index (S idx) rest (<[scene_number f := idx]> acc.1, keys)
  end.

(** Lines 375-383: scene ids that are not a key of [scene_id_to_idx] are
    dropped from every entry. *)
Definition validate_character_map (scene_id_to_idx : gmap Z nat)
    (character_map : list (string * list Z)) : list (string * list Z) :=
  map (fun kv => (kv.1,
         filter (fun sid => is_Some (scene_id_to_idx !! sid)) kv.2))
      character_map.

(** Line 354, [np.allclose(np.linalg.norm(v), 1.0)]: the norm of [v] is
    within [atol + rtol * 1.0 = 1e-8 + 1e-5] of 1.  The norm is not a
    rational in general but its square is, so the test is stated on the sum
    of the squares: [(1 - tol)^2 <= sum <= (1 + tol)^2]. *)
Definition allclose_tolerance : Q := (0.00000001 + 0.00001 * 1)%Q.

Definition unit_norm (v : list Q) : bool :=
  Qle_bool ((1 - allclose_tolerance) * (1 - allclose_tolerance)) (dot v v)
  && Qle_bool (dot v v) ((1 + allclose_tolerance) * (1 + allclose_tolerance)).

(** ** Dictionaries of names

    A Python dictionary with string keys as the list of its items, in
    insertion order: [d[k] = v] replaces the value of [k] where it stands,
    or appends the item when [k] is new. *)
Fixpoint dict_set {V} (k : string) (v : V) (d : list (string * V))
  : list (string * V) :=
  match d with
  | [] => [(k, v)]
  | (k', v') :: d' =>
      if decide (k' = k) then (k, v) :: d' else (k', v') :: dict_set k v d'
  end.

Fixpoint dict_get {V} (k : string) (d : list (string * V)) : option V :=
  match d with
  | [] => None
  | (k', v') :: d' => if decide (k' = k) then Some v' else dict_get k d'
  end.

(** The value of a character in [char_names_dict]; a missing list is the
    empty list, as [variations.get(..., [])] makes it. *)
Record variations : Type := Variations {
  russian : list string;
  english : list string;
  aliases : list string;
}.

(** ** The methods that read text or normalise: library code as variables *)

Section Matcher.

(** [str.lower]. *)
Variable lower : string → string.
(** [word_search w text] is the test
    [re.search(r'\b' + re.escape(w) + r'\b', text)]. *)
Variable word_search : string → string → bool.
(** [self.normalize_vector] on a row of the embedding array: the row
    divided by its Euclidean norm, a square root that a rational vector
    cannot hold in general.  [normalize_vector] below is the function over
    the reals; what is proved of a run holds for every function here. *)
Variable normalize_embedding : list Q → list Q.

(** *** [build_translation_map] (lines 63-88) *)

(** One of the three inner loops. *)
Definition add_variations (main_name : string) (vars : list string)
    (translations : list (string * string)) : list (string * string) :=
  foldl (λ tr v, dict_set (lower v) main_name tr) translations vars.

Definition build_translation_map
    (char_names_dict : list (string * variations)) : list (string * string) :=
  foldl (λ tr item,
           add_variations item.1 (aliases item.2)
             (add_variations item.1 (english item.2)
                (add_variations item.1 (russian item.2) tr)))
        [] char_names_dict.

(** The assignments [translations[var.lower()] = main_name] in the order
    the loops run them. *)
Definition translation_entries (char_names_dict : list (string * variations))
  : list (string * string) :=
  item ← char_names_dict;
  (λ v, (lower v, item.1))
    <$> (russian item.2 ++ english item.2 ++ aliases item.2).

(** *** [extract_character_names] *)

Fixpoint scan_translations (text_lower : string)
    (known_characters : list string) (items : list (string * string))
    (found : list string) : list string :=
  match items with
  | [] => found
  | (rus_name, eng_name) :: rest =>
      if word_search rus_name text_lower then
        if bool_decide (eng_name ∈ known_characters)
           && negb (bool_decide (eng_name ∈ found))
        then scan_translations text_lower known_characters rest
               (found ++ [eng_name])
        else scan_translations text_lower known_characters rest found
      else scan_translations text_lower known_characters rest found
  end.

Fixpoint scan_known (text_lower : string) (chars : list string)
    (found : list string) : list string :=
  match chars with
  | [] => found
  | char :: rest =>
      if word_search (lower char) text_lower
         && negb (bool_decide (char ∈ found))
      then scan_known text_lower rest (found ++ [char])
      else scan_known text_lower rest found
  end.

Definition extract_character_names (s : matcher) (text : string)
    (known_characters : list string) : list string :=
  let text_lower := lower text in
  let found :=
    scan_translations text_lower known_characters (name_translations s) [] in
  scan_known text_lower known_characters found.

(** *** [get_search_pool] *)

Definition known_characters_of (character_map : list (string * list Z))
  : list string :=
  filter (fun c => c ≠ "none") (map fst character_map).

(** Lines 149-168: the new state and the label before the pool is chosen. *)
Definition update_context (s : matcher) (mentioned_characters : list string)
  : matcher * string :=
  match mentioned_characters with
  | primary_char :: _ =>
      if decide (Some primary_char ≠ active_character s)
      then (set_active_character s (Some primary_char),
            label_switch primary_char)
      else (s, label_confirm primary_char)
  | [] =>
      if truthy (active_character s)
      then (s, label_hold (default "" (active_character s)))
      else (s, label_no_context)
  end.

Definition get_search_pool (s : matcher) (text : string)
    (character_map : list (string * list Z)) (all_scene_ids : list Z)
  : (list Z * string) * matcher :=
  let known_characters := known_characters_of character_map in
  let mentioned_characters :=
    extract_character_names s text known_characters in
  let '(s', context) := update_context s mentioned_characters in
  if truthy (active_character s') then
    let pool :=
      character_map_get character_map (default "" (active_character s')) in
    match pool with
    | [] => ((all_scene_ids, context +:+ pool_empty_fallback), s')
    | _ :: _ => ((pool, context), s')
    end
  else ((all_scene_ids, context), s').

(** *** The body of the matching loop: lines 405-439

    One turn of the loop of [match_audio_to_frames]: the pool of the
    segment, its indices and embeddings, the selection and the result. *)

Definition pool_indices_of (scene_id_to_idx : gmap Z nat)
    (search_pool : list Z) (frame_embeddings : list (list Q)) : list nat :=
  match omap (fun sid => scene_id_to_idx !! sid) search_pool with
  | [] => seq 0 (length frame_embeddings)
  | i :: l => i :: l
  end.

Definition select (s : matcher) (character_map : list (string * list Z))
    (all_scene_ids : list Z) (scene_id_to_idx : gmap Z nat)
    (frame_embeddings : list (list Q)) (frame_files : list path)
    (chunk : nat) (text : string) (text_emb : list Q) (r : Q)
  : outcome match_result :=
  let '((search_pool, context), s1) :=
    get_search_pool s text character_map all_scene_ids in
  let pool_indices :=
    pool_indices_of scene_id_to_idx search_pool frame_embeddings in
  match gather frame_embeddings pool_indices with
  | inl e => Raise e s1
  | inr pool_embeddings =>
      match find_best_match_with_rotation s1 text_emb pool_embeddings
              pool_indices frame_files chunk r with
      | Raise e s2 => Raise e s2
      | Ok (best_idx, best_score) s2 =>
          match index frame_files best_idx with
          | inl e => Raise e s2
          | inr f =>
              Ok {| audio_text := text;
                    frame_file := f;
                    frame_index := best_idx;
                    similarity_score := best_score;
                    chunk_index := chunk;
                    search_context := context;
                    search_pool_size := length pool_indices |} s2
          end
      end
  end.

(** The loop [for idx, (text, text_emb) in enumerate(zip(...), 1)];
    [chunk] is [idx - 1] and [rand chunk] the draw of that turn. *)
Fixpoint match_loop (s : matcher) (character_map : list (string * list Z))
    (all_scene_ids : list Z) (scene_id_to_idx : gmap Z nat)
    (frame_embeddings : list (list Q)) (frame_files : list path)
    (rand : nat → Q) (chunk : nat) (segments : list (string * list Q))
    (results : list match_result) : outcome (list match_result) :=
  match segments with
  | [] => Ok results s
  | (text, text_emb) :: rest =>
      match select s character_map all_scene_ids scene_id_to_idx
              frame_embeddings frame_files chunk text text_emb
              (rand chunk) with
      | Raise e s' => Raise e s'
      | Ok res s' =>
          match_loop s' character_map all_scene_ids scene_id_to_idx
            frame_embeddings frame_files rand (S chunk) rest
            (results ++ [res])
      end
  end.

(** Lines 353-358: the loaded array, with every row normalized when the
    first row does not have unit norm; [frame_embeddings[0]] raises on an
    empty array. *)
Definition normalized_embeddings (frame_embeddings : list (list Q))
  : result (list (list Q)) :=
  match frame_embeddings with
  | [] => inl IndexError
  | first :: _ =>
      if unit_norm first then inr frame_embeddings
      else inr (map normalize_embedding frame_embeddings)
  end.

(** [match_audio_to_frames] from line 349 on.  [segments] is the
    transcript zipped with its text embeddings, [frame_embeddings] the
    loaded array. *)
Definition match_audio_to_frames (s : matcher)
    (segments : list (string * list Q))
    (character_map : list (string * list Z))
    (frame_embeddings : list (list Q)) (frame_files : list path)
    (rand : nat → Q) : outcome (list match_result) :=
  match normalized_embeddings frame_embeddings with
  | inl e => Raise e s
  | inr frame_embeddings =>
      let '(scene_id_to_idx, all_scene_ids) :=
        build_scene_index 0 frame_files (∅, []) in
      let character_map' :=
        validate_character_map scene_id_to_idx character_map in
      match_loop s character_map' all_scene_ids scene_id_to_idx
        frame_embeddings frame_files rand 0 segments []
  end.

End Matcher.

(** ** An instance of the library functions on ASCII text

    [ascii_lower] and [ascii_word_search] are [str.lower] and the
    word-boundary search on ASCII strings (a byte above 127 counts as a word
    character); they instantiate the Section variables on concrete inputs. *)

Definition is_word_char (c : ascii) : bool :=
  let n := nat_of_ascii c in
  ((48 <=? n) && (n <=? 57)) || ((65 <=? n) && (n <=? 90))
  || ((97 <=? n) && (n <=? 122)) || (n =? 95) || (128 <=? n).

Definition lower_char (c : ascii) : ascii :=
  let n := nat_of_ascii c in
  if (65 <=? n) && (n <=? 90) then ascii_of_nat (n + 32) else c.

Fixpoint ascii_lower (s : string) : string :=
  match s with
  | EmptyString => EmptyString
  | String c s' => String (lower_char c) (ascii_lower s')
  end.

Definition word_opt (c : option ascii) : bool :=
  match c with
  | Some x => is_word_char x
  | None => false
  end.

(** [\b]: exactly one of the two neighbours is a word character. *)
Definition boundary (before after : option ascii) : bool :=
  xorb (word_opt before) (word_opt after).

Definition head_char (s : string) : option ascii :=
  match s with
  | String c _ => Some c
  | EmptyString => None
  end.

Fixpoint match_prefix (w text : string) (prev : option ascii)
  : option (option ascii * string) :=
  match w with
  | EmptyString => Some (prev, text)
  | String c w' =>
      match text with
      | String d text' =>
          if Ascii.eqb c d then match_prefix w' text' (Some d) else None
      | EmptyString => None
      end
  end.

Definition match_here (w text : string) (prev : option ascii) : bool :=
  boundary prev (head_char text)
  && match match_prefix w text prev with
     | Some (last, rest) => boundary last (head_char rest)
     | None => false
     end.

Fixpoint search_from (w text : string) (prev : option ascii) : bool :=
  match_here w text prev
  || match text with
     | String c text' => search_from w text' (Some c)
     | EmptyString => false
     end.

Definition ascii_word_search (w text : string) : bool :=
  search_from w text None.

(** ** [normalize_vector] (lines 277-280)

    The vector is a list of reals; [np.linalg.norm] is the Euclidean norm. *)

Definition sum_squares (vec : list R) : R :=
  fold_right (fun x acc => (x * x + acc)%R) 0%R vec.

Definition norm (vec : list R) : R := sqrt (sum_squares vec).

Definition normalize_vector (vec : list R) : list R :=
  let n := norm vec in
  if Rlt_dec 0 n then map (fun x => (x / n)%R) vec else vec.

(** ** Vocabulary of the statements *)

(** [outranks fs a b]: position [a] precedes position [b] in the ranking,
    having the greater score or, at equal scores, the later position. *)
Definition outranks (fs : list Q) (a b : nat) : Prop :=
  (score_at fs b < score_at fs a)%Q
  ∨ ((score_at fs a == score_at fs b)%Q ∧ b < a).

(** The candidate the loop builds for a pool position. *)
Definition candidate_at (pool_indices : list nat) (frame_files : list path)
    (final_scores : list Q) (pool_idx : nat) : option candidate :=
  ridx ← pool_indices !! pool_idx;
  f ← frame_files !! ridx;
  sc ← final_scores !! pool_idx;
  Some (Candidate ridx sc (name f)).

Definition survives (s : matcher) (current_chunk_idx pool_size : nat)
    (c : candidate) : Prop :=
  passes_filter s (frame_name c) current_chunk_idx pool_size = true.

#[global] Instance survives_dec s cur n c : Decision (survives s cur n c).
Proof. unfold survives. apply _. Defined.

(** The number of results that chose frame [i]. *)
Definition picks_of (i : nat) (results : list match_result) : nat :=
  length (filter (λ res, frame_index res = i) results).

(** The candidates the loop body computes for a segment in state [s]: the
    survivors of the filter, before the winner is chosen. *)
Definition survivors_of (lower : string → string)
    (word_search : string → string → bool) (s : matcher)
    (character_map : list (string * list Z)) (all_scene_ids : list Z)
    (scene_id_to_idx : gmap Z nat) (frame_embeddings : list (list Q))
    (frame_files : list path) (chunk : nat) (text : string)
    (text_emb : list Q) : result (list candidate) :=
  let out := get_search_pool lower word_search s text character_map
               all_scene_ids in
  let pool_indices :=
    pool_indices_of scene_id_to_idx out.1.1 frame_embeddings in
  let! pool_embeddings := gather frame_embeddings pool_indices in
  let! final_scores :=
    final_scores_of (last_selected_frame_idx out.2) text_emb pool_embeddings
      pool_indices in
  candidates_of out.2 pool_indices frame_files final_scores chunk.

(** A candidate built from the frame list: it names a frame of the list. *)
Definition from_frames (frame_files : list path) (c : candidate) : Prop :=
  ∃ f, frame_files !! real_idx c = Some f ∧ frame_name c = name f.

(** The ledger invariant: a frame was chosen at most as many times as the
    usage count of its name. *)
Definition ledger_bounds_picks (frame_files : list path) (s : matcher)
    (results : list match_result) : Prop :=
  ∀ i f, frame_files !! i = Some f →
    picks_of i results ≤ usage_count_of s (name f).

(** The fallback fired at segment [k] of a run from [s]: the run reaches
    segment [k] in some state [sk], having produced the first [k] results,
    and no candidate survives the filter there. *)
Definition fallback_fired (lower : string → string)
    (word_search : string → string → bool)
    (character_map : list (string * list Z)) (all_scene_ids : list Z)
    (scene_id_to_idx : gmap Z nat) (frame_embeddings : list (list Q))
    (frame_files : list path) (s : matcher) (rand : nat → Q)
    (segments : list (string * list Q)) (results : list match_result)
    (k : nat) : Prop :=
  ∃ text text_emb sk,
    segments !! k = Some (text, text_emb)
    ∧ match_loop lower word_search s character_map all_scene_ids
        scene_id_to_idx frame_embeddings frame_files rand 0
        (take k segments) [] = Ok (take k results) sk
    ∧ survivors_of lower word_search sk character_map all_scene_ids
        scene_id_to_idx frame_embeddings frame_files k text text_emb
      = inr [].

(** What [np.argsort] promises of its result [asc] on [scores], whatever
    its kind: every position once, by ascending score. *)
Definition ascending_argsort (scores : list Q) (asc : list nat) : Prop :=
  Permutation asc (seq 0 (length scores))
  ∧ StronglySorted (λ a b, (score_at scores a <= score_at scores b)%Q) asc.

(** [v] is the last position of [files] whose file has scene number [k]. *)
Definition last_frame_of_scene (files : list path) (k : Z) (v : nat) : Prop :=
  (∃ f, files !! v = Some f ∧ scene_number f = k)
  ∧ ∀ v' f', files !! v' = Some f' → scene_number f' = k → v' ≤ v.

(** ** Concrete inputs *)

Definition one_frame : list path := [Path "scene_0.jpg" 0].

Definition two_frames : list path :=
  [Path "scene_0.jpg" 0; Path "scene_1.jpg" 1].

(** The matcher after frame 0 was chosen at chunk 0. *)
Definition used_once : matcher :=
  commit init_matcher (Candidate 0 (1 # 2) "scene_0.jpg") 0.

(** A run of four segments over a single frame; its embedding has unit
    norm, so that the normalisation does not run. *)
Definition four_segments : list (string * list Q) :=
  [("a", [1]%Q); ("b", [1]%Q); ("c", [1]%Q); ("d", [1]%Q)].

Definition demo_run : outcome (list match_result) :=
  match_audio_to_frames ascii_lower ascii_word_search (λ v, v) init_matcher
    four_segments [] [[1]]%Q one_frame (λ _, 1 # 2).

Definition demo_results : list match_result :=
  match demo_run with
  | Ok results _ => results
  | Raise _ _ => []
  end.

Definition demo_final : matcher :=
  match demo_run with
  | Ok _ s => s
  | Raise _ s => s
  end.

(** * Properties *)

(** ** The scorer *)

Lemma bonus_loop_spec last rest : ∀ i (fs : list Q),
  i + length rest = length fs →
  ∃ fs', bonus_loop last i rest fs = inr fs'
    ∧ length fs' = length fs
    ∧ (∀ j, j < i → fs' !! j = fs !! j)
    ∧ (∀ k ridx, rest !! k = Some ridx →
         fs' !! (i + k) =
         (fun x => if in_continuity_window ridx last
                   then (x + continuity_bonus)%Q else x) <$> fs !! (i + k)).
Proof.
  induction rest as [|ridx rest IH]; intros i fs Hlen; simpl in *.
  - exists fs. split; [done|]. split; [done|]. split; [done|].
    intros k r Hk. rewrite lookup_nil in Hk. discriminate.
  - destruct (in_continuity_window ridx last) eqn:Hw.
    + unfold index.
      destruct (lookup_lt_is_Some_2 fs i ltac:(lia)) as [x Hx].
      rewrite Hx. simpl.
      destruct (IH (S i) (<[i := (x + continuity_bonus)%Q]> fs))
        as (fs' & Hr & Hl & Hlo & Hhi).
      { rewrite length_insert. lia. }
      exists fs'. rewrite length_insert in Hl.
      split; [done|]. split; [done|]. split.
      * intros j Hj. rewrite Hlo by lia. apply list_lookup_insert_ne. lia.
      * intros [|k] r Hk; simpl in Hk.
        -- inversion Hk; subst r. rewrite Nat.add_0_r, Hlo by lia.
           rewrite list_lookup_insert_eq by lia. rewrite Hx. simpl.
           rewrite Hw. done.
        -- replace (i + S k) with (S i + k) by lia. rewrite (Hhi k r Hk).
           rewrite list_lookup_insert_ne by lia. done.
    + destruct (IH (S i) fs) as (fs' & Hr & Hl & Hlo & Hhi); [lia|].
      exists fs'. split; [done|]. split; [done|]. split.
      * intros j Hj. apply Hlo. lia.
      * intros [|k] r Hk; simpl in Hk.
        -- inversion Hk; subst r. rewrite Nat.add_0_r, Hlo by lia.
           rewrite Hw. destruct (fs !! i); done.
        -- replace (i + S k) with (S i + k) by lia. apply (Hhi k r Hk).
Qed.

Lemma in_continuity_window_iff real_idx last :
  in_continuity_window real_idx last = true
  ↔ (5 < dist real_idx last < 48)%Z.
Proof.
  unfold in_continuity_window, scene_continuity_window.
  rewrite andb_true_iff, !Z.ltb_lt. tauto.
Qed.

Lemma length_base_scores text_emb pool_embeddings :
  length (base_scores text_emb pool_embeddings) = length pool_embeddings.
Proof. unfold base_scores. by rewrite length_map. Qed.

(** With a prior selection and score and index arrays of one length, the
    scorer returns an array of that length where position [i] holds the
    base score, plus the bonus when the frame is in the window. *)
Lemma final_scores_of_Some last text_emb pool_embeddings pool_indices :
  length pool_embeddings = length pool_indices →
  ∃ fs,
    final_scores_of (Some last) text_emb pool_embeddings pool_indices = inr fs
    ∧ length fs = length pool_indices
    ∧ ∀ i ridx base,
        pool_indices !! i = Some ridx →
        base_scores text_emb pool_embeddings !! i = Some base →
        fs !! i = Some (if in_continuity_window ridx last
                        then (base + continuity_bonus)%Q else base).
Proof.
  intros Hlen. unfold final_scores_of.
  destruct (bonus_loop_spec last pool_indices 0
              (base_scores text_emb pool_embeddings))
    as (fs & Hr & Hl & _ & Hhi).
  { rewrite length_base_scores. simpl. lia. }
  exists fs. split; [done|]. split.
  { rewrite Hl, length_base_scores. done. }
  intros i ridx base Hi Hb. specialize (Hhi i ridx Hi). simpl in Hhi.
  rewrite Hhi, Hb. done.
Qed.

(** C1 -- continuity bonus.  With a prior selection [last], every
    candidate's final score is its base score plus exactly 0.05 when the
    distance between its index and [last] is strictly between 5 and 48, and
    its base score otherwise (in particular at distance 5 and at distance
    48); the two outcomes differ, so the bonus is present exactly in the
    window and is added once.  Without a prior selection the final scores
    are the base scores. *)
Theorem continuity_bonus_window
    (last : nat) (text_emb : list Q) (pool_embeddings : list (list Q))
    (pool_indices : list nat) :
  length pool_embeddings = length pool_indices →
  (∃ fs,
     final_scores_of (Some last) text_emb pool_embeddings pool_indices
       = inr fs
     ∧ ∀ i ridx base,
         pool_indices !! i = Some ridx →
         base_scores text_emb pool_embeddings !! i = Some base →
         ((5 < dist ridx last < 48)%Z → fs !! i = Some (base + 0.05)%Q)
         ∧ (¬ (5 < dist ridx last < 48)%Z → fs !! i = Some base)
         ∧ ¬ (base + 0.05 == base)%Q)
  ∧ final_scores_of None text_emb pool_embeddings pool_indices
    = inr (base_scores text_emb pool_embeddings).
Proof.
  intros Hlen. split; [|done].
  destruct (final_scores_of_Some last text_emb _ _ Hlen) as (fs & Hr & _ & Hfs).
  exists fs. split; [done|]. intros i ridx base Hi Hb.
  specialize (Hfs i ridx base Hi Hb).
  split; [|split].
  - intros Hw. apply in_continuity_window_iff in Hw. by rewrite Hw in Hfs.
  - intros Hw. destruct (in_continuity_window ridx last) eqn:E; [|done].
    apply in_continuity_window_iff in E. contradiction.
  - intros Heq. assert (H : (0.05 == 0)%Q).
    { apply (Qplus_inj_l _ _ base). rewrite Qplus_0_r. exact Heq. }
    discriminate H.
Qed.

Lemma continuity_bonus_window_witness :
  (∃ fs,
     final_scores_of (Some 10) [1; 0]%Q [[1 # 2; 0]; [1 # 4; 0]]%Q [15; 16]
       = inr fs
     ∧ ∀ i ridx base,
         [15; 16] !! i = Some ridx →
         base_scores [1; 0]%Q [[1 # 2; 0]; [1 # 4; 0]]%Q !! i = Some base →
         ((5 < dist ridx 10 < 48)%Z → fs !! i = Some (base + 0.05)%Q)
         ∧ (¬ (5 < dist ridx 10 < 48)%Z → fs !! i = Some base)
         ∧ ¬ (base + 0.05 == base)%Q)
  ∧ final_scores_of None [1; 0]%Q [[1 # 2; 0]; [1 # 4; 0]]%Q [15; 16]
    = inr (base_scores [1; 0]%Q [[1 # 2; 0]; [1 # 4; 0]]%Q).
Proof.
  apply (continuity_bonus_window 10 [1; 0]%Q [[1 # 2; 0]; [1 # 4; 0]]%Q
           [15; 16]).
  reflexivity.
Defined.

(** The scorer at the boundary: distances 5, 6, 47 and 48 from the last
    pick 100, base score 1/2 each. *)
Example continuity_bonus_boundaries :
  final_scores_of (Some 100) [1]%Q [[1 # 2]; [1 # 2]; [1 # 2]; [1 # 2]]%Q
    [105; 106; 147; 148]
  = inr [1 * (1 # 2) + 0; 1 * (1 # 2) + 0 + 0.05;
         1 * (1 # 2) + 0 + 0.05; 1 * (1 # 2) + 0]%Q.
Proof. reflexivity. Qed.

(** ** The usage ledger *)

Lemma dynamic_cooldown_bounds n : 5 ≤ dynamic_cooldown n ≤ 20.
Proof. unfold dynamic_cooldown. lia. Qed.

(** C2 -- usage filter.  A frame passes the filter at position [p] in a
    pool of size [n] exactly when its usage count is below 3 and it has
    never been used or [p] minus its last-used position is at least the
    dynamic cooldown; the cooldown is [n / 10] clamped to [5, 20]. *)
Theorem usage_filter_spec (s : matcher) (frame : string) (p n : nat) :
  (passes_filter s frame p n = true ↔
     usage_count_of s frame < 3
     ∧ (frame_last_used_at s !! frame = None
        ∨ ∃ last_used, frame_last_used_at s !! frame = Some last_used
            ∧ (Z.of_nat p - last_used >= Z.of_nat (dynamic_cooldown n))%Z))
  ∧ dynamic_cooldown n = Nat.max 5 (Nat.min 20 (n / 10))
  ∧ (n / 10 ≤ 5 → dynamic_cooldown n = 5)
  ∧ (5 ≤ n / 10 ≤ 20 → dynamic_cooldown n = n / 10)
  ∧ (20 ≤ n / 10 → dynamic_cooldown n = 20).
Proof.
  split; [|unfold dynamic_cooldown; repeat split; lia].
  pose proof (dynamic_cooldown_bounds n) as Hcd.
  unfold passes_filter, last_used_of, max_frame_usage.
  destruct (Nat.leb_spec 3 (usage_count_of s frame)) as [Hu|Hu].
  { split; [discriminate|]. intros [? _]. lia. }
  destruct (frame_last_used_at s !! frame) as [l|] eqn:El; simpl.
  - destruct (Z.ltb_spec (Z.of_nat p - l) (Z.of_nat (dynamic_cooldown n)))
      as [Hc|Hc].
    + split; [discriminate|]. intros [_ [?|(l' & Hl' & ?)]]; [done|].
      inversion Hl'; subst. lia.
    + split; [|done]. intros _. split; [lia|]. right. exists l. split; [done|lia].
  - destruct (Z.ltb_spec (Z.of_nat p - -999) (Z.of_nat (dynamic_cooldown n)))
      as [Hc|Hc]; [lia|].
    split; [|done]. intros _. split; [lia|]. by left.
Qed.

(** ** The ranking *)

Lemma insert_idx_perm fs x l : Permutation (insert_idx fs x l) (x :: l).
Proof.
  induction l as [|y l IH]; simpl; [done|].
  destruct (Qle_bool _ _); [|done].
  rewrite IH. apply perm_swap.
Qed.

Lemma outranks_trans fs a b c : outranks fs a b → outranks fs b c → outranks fs a c.
Proof.
  unfold outranks. intros [H1|[H1 L1]] [H2|[H2 L2]].
  - left. eapply Qlt_trans; eauto.
  - left. rewrite <- H2. done.
  - left. rewrite H1. done.
  - right. split; [by rewrite H1|lia].
Qed.

Lemma insert_idx_sorted fs x l :
  Forall (λ y, y < x) l →
  StronglySorted (flip (outranks fs)) l →
  StronglySorted (flip (outranks fs)) (insert_idx fs x l).
Proof.
  intros Hlt Hs. induction Hs as [|y l Hs IH Hy]; simpl.
  - repeat constructor.
  - inversion Hlt as [|? ? Hyx Hlt']; subst.
    destruct (Qle_bool (score_at fs y) (score_at fs x)) eqn:E.
    + constructor; [by apply IH|].
      rewrite (insert_idx_perm fs x l). constructor; [|done].
      apply Qle_bool_iff in E. unfold flip, outranks.
      destruct (Qle_lt_or_eq _ _ E) as [?|Heq]; [by left|].
      right. split; [by symmetry|done].
    + assert (Hxy : (score_at fs x < score_at fs y)%Q).
      { apply Qnot_le_lt. intros H. apply Qle_bool_iff in H. congruence. }
      constructor; [by constructor|].
      constructor; [by left|].
      eapply Forall_impl; [exact Hy|]. intros z Hz. simpl in Hz.
      eapply outranks_trans; [exact Hz|]. by left.
Qed.

Lemma argsort_fold fs : ∀ len start acc,
  Forall (λ y, y < start) acc →
  StronglySorted (flip (outranks fs)) acc →
  let l := foldl (λ acc i, insert_idx fs i acc) acc (seq start len) in
  Permutation l (acc ++ seq start len)
  ∧ StronglySorted (flip (outranks fs)) l.
Proof.
  induction len as [|len IH]; intros start acc Hlt Hs; simpl.
  - by rewrite app_nil_r.
  - destruct (IH (S start) (insert_idx fs start acc)) as [Hp Hs'].
    + rewrite (insert_idx_perm fs start acc). constructor; [lia|].
      eapply Forall_impl; [exact Hlt|]. simpl. lia.
    + by apply insert_idx_sorted.
    + split; [|done]. rewrite Hp, (insert_idx_perm fs start acc).
      simpl. apply Permutation_middle.
Qed.

Lemma StronglySorted_rev {A} (R : relation A) l :
  StronglySorted R l → StronglySorted (flip R) (rev l).
Proof.
  induction 1 as [|x l Hs IH Hx]; simpl; [constructor|].
  apply StronglySorted_app_2; [|done|repeat constructor].
  intros a b Ha Hb. apply list_elem_of_singleton in Hb. subst b.
  rewrite Forall_forall in Hx. apply Hx.
  apply list_elem_of_In, in_rev, list_elem_of_In. done.
Qed.

Lemma sorted_indices_perm fs :
  Permutation (sorted_indices fs) (seq 0 (length fs)).
Proof.
  unfold sorted_indices, argsort.
  destruct (argsort_fold fs (length fs) 0 []) as [Hp _]; [constructor..|].
  rewrite <- Permutation_rev. exact Hp.
Qed.

Lemma sorted_indices_sorted fs :
  StronglySorted (outranks fs) (sorted_indices fs).
Proof.
  unfold sorted_indices, argsort.
  destruct (argsort_fold fs (length fs) 0 []) as [_ Hs]; [constructor..|].
  apply StronglySorted_rev in Hs. exact Hs.
Qed.

Lemma sorted_indices_lt fs i : i ∈ sorted_indices fs → i < length fs.
Proof.
  rewrite (sorted_indices_perm fs). rewrite list_elem_of_In, in_seq. lia.
Qed.

(** ** The candidate loop *)

Lemma candidate_at_Some pi ff fs i c :
  candidate_at pi ff fs i = Some c ↔
  ∃ ridx f sc, pi !! i = Some ridx ∧ ff !! ridx = Some f ∧ fs !! i = Some sc
    ∧ c = Candidate ridx sc (name f).
Proof.
  unfold candidate_at. split.
  - destruct (pi !! i) as [ridx|] eqn:E1; simpl; [|done].
    destruct (ff !! ridx) as [f|] eqn:E2; simpl; [|done].
    destruct (fs !! i) as [sc|] eqn:E3; simpl; [|done].
    intros [= <-]. exists ridx, f, sc. done.
  - intros (ridx & f & sc & -> & Hf & -> & ->). simpl. rewrite Hf. done.
Qed.

Lemma candidates_loop_spec s pi ff fs cur n : ∀ sorted cs acc,
  Forall2 (λ i c, candidate_at pi ff fs i = Some c) sorted cs →
  length acc < top_candidates_pool →
  candidates_loop s pi ff fs cur n sorted acc
  = inr (acc ++ take (top_candidates_pool - length acc)
                  (filter (survives s cur n) cs)).
Proof.
  induction sorted as [|i sorted IH]; intros cs acc Hcs Hacc.
  - inversion Hcs; subst. simpl. rewrite filter_nil, take_nil, app_nil_r. done.
  - inversion Hcs as [|? c ? cs' Hc Hcs']; subst.
    apply candidate_at_Some in Hc as (ridx & f & sc & Hr & Hf & Hsc & ->).
    cbn [candidates_loop]. unfold index, rbind. rewrite Hr, Hf.
    rewrite filter_cons.
    destruct (decide (survives s cur n (Candidate ridx sc (name f)))) as [Hp|Hp];
      unfold survives in Hp; cbn [frame_name] in Hp.
    + rewrite Hp, Hsc. rewrite length_app. cbn [length].
      destruct (Nat.leb_spec top_candidates_pool (length acc + 1))
        as [Hfull|Hmore].
      * replace (top_candidates_pool - length acc) with 1 by lia. done.
      * rewrite (IH cs' _ Hcs') by (rewrite length_app; cbn [length]; lia).
        rewrite length_app. cbn [length].
        replace (top_candidates_pool - length acc)
          with (S (top_candidates_pool - (length acc + 1))) by lia.
        cbn [take]. rewrite <- app_assoc. done.
    + apply not_true_is_false in Hp. rewrite Hp. apply IH; done.
Qed.

Lemma candidates_exist pi ff fs (sorted : list nat) :
  length fs = length pi →
  (∀ i ridx, pi !! i = Some ridx → ridx < length ff) →
  (∀ i, i ∈ sorted → i < length fs) →
  ∃ cs, Forall2 (λ i c, candidate_at pi ff fs i = Some c) sorted cs.
Proof.
  intros Hlen Hff. induction sorted as [|i sorted IH]; intros Hin.
  - exists []. constructor.
  - destruct IH as [cs Hcs]. { intros j Hj. apply Hin. by right. }
    assert (Hi : i < length fs) by (apply Hin; by left).
    destruct (lookup_lt_is_Some_2 pi i ltac:(lia)) as [ridx Hr].
    destruct (lookup_lt_is_Some_2 ff ridx ltac:(eauto)) as [f Hf].
    destruct (lookup_lt_is_Some_2 fs i Hi) as [sc Hsc].
    exists (Candidate ridx sc (name f) :: cs). constructor; [|done].
    apply candidate_at_Some. eauto 10.
Qed.

Lemma StronglySorted_weaken {A} (R R' : relation A) l :
  (∀ a b, R a b → R' a b) → StronglySorted R l → StronglySorted R' l.
Proof.
  intros HR. induction 1 as [|x l Hs IH Hx]; constructor; [done|].
  eapply Forall_impl; [exact Hx|]. intros b. apply HR.
Qed.

(** The insertion sort of [argsort] is one of the orders [np.argsort] may
    return. *)
Lemma argsort_ascending fs : ascending_argsort fs (argsort fs).
Proof.
  unfold ascending_argsort, argsort.
  destruct (argsort_fold fs (length fs) 0 []) as [Hp Hs]; [constructor..|].
  split; [exact Hp|].
  eapply StronglySorted_weaken; [|exact Hs].
  clear. intros a b [Hlt|[Heq _]]; [by apply Qlt_le_weak|].
  rewrite Heq. apply Qle_refl.
Qed.

(** C3 (amended) -- ranking.  Whatever order [asc] of ascending score
    [np.argsort] returns for the final scores, the ranking [asc[::-1]] lists
    every pool position once, by descending final score; nothing more is
    fixed on positions of equal final score, whose order is the reverse of
    the one [np.argsort] gave them.  The final candidate set is the first 5
    survivors of the filter in that ranking.  ([candidates_of] is this loop
    on the order of [argsort], one of these orders by [argsort_ascending].) *)
Theorem ranking_and_top_candidates (s : matcher) (pool_indices : list nat)
    (frame_files : list path) (final_scores : list Q) (current_chunk_idx : nat)
    (asc : list nat) :
  ascending_argsort final_scores asc →
  length final_scores = length pool_indices →
  (∀ i ridx, pool_indices !! i = Some ridx → ridx < length frame_files) →
  Permutation (rev asc) (seq 0 (length pool_indices))
  ∧ StronglySorted
      (λ a b, (score_at final_scores b <= score_at final_scores a)%Q) (rev asc)
  ∧ ∃ ranked,
      Forall2 (λ i c, candidate_at pool_indices frame_files final_scores i
                      = Some c) (rev asc) ranked
      ∧ candidates_loop s pool_indices frame_files final_scores
          current_chunk_idx (length pool_indices) (rev asc) []
        = inr (take 5 (filter (survives s current_chunk_idx
                                 (length pool_indices)) ranked)).
Proof.
  intros [Hperm Hsorted] Hlen Hff.
  assert (Hp : Permutation (rev asc) (seq 0 (length pool_indices))).
  { rewrite <- Hlen, <- Hperm. symmetry. apply Permutation_rev. }
  split; [exact Hp|]. split.
  - apply StronglySorted_rev in Hsorted. exact Hsorted.
  - destruct (candidates_exist pool_indices frame_files final_scores
                (rev asc) Hlen Hff) as [cs Hcs].
    { intros i Hi. rewrite Hp, list_elem_of_In, in_seq in Hi. lia. }
    exists cs. split; [done|].
    rewrite (candidates_loop_spec _ _ _ _ _ _ _ cs []); [done..|].
    simpl. unfold top_candidates_pool. lia.
Qed.

Lemma ranking_and_top_candidates_witness :
  Permutation (rev (argsort [1 # 2; 1 # 2]%Q)) (seq 0 (length [0; 1]))
  ∧ StronglySorted
      (λ a b, (score_at [1 # 2; 1 # 2] b <= score_at [1 # 2; 1 # 2] a)%Q)
      (rev (argsort [1 # 2; 1 # 2]%Q))
  ∧ ∃ ranked,
      Forall2 (λ i c, candidate_at [0; 1] two_frames [1 # 2; 1 # 2]%Q i
                      = Some c) (rev (argsort [1 # 2; 1 # 2]%Q)) ranked
      ∧ candidates_loop init_matcher [0; 1] two_frames [1 # 2; 1 # 2]%Q 0
          (length [0; 1]) (rev (argsort [1 # 2; 1 # 2]%Q)) []
        = inr (take 5 (filter (survives init_matcher 0 (length [0; 1])) ranked)).
Proof.
  apply (ranking_and_top_candidates init_matcher [0; 1] two_frames
           [1 # 2; 1 # 2]%Q 0 (argsort [1 # 2; 1 # 2]%Q)).
  - split; [reflexivity|]. vm_compute. repeat constructor; discriminate.
  - reflexivity.
  - intros [|[|i]] ridx H; simpl in H; inversion H; subst; simpl; lia.
Defined.

(** C3 as stated fails: on the insertion sort numpy runs on two scores,
    two candidates of equal final score are ranked with the later pool
    position first, not the earlier one. *)
Lemma ties_ranked_in_reverse_pool_order :
  (score_at [1 # 2; 1 # 2]%Q 0 == score_at [1 # 2; 1 # 2]%Q 1)%Q
  ∧ sorted_indices [1 # 2; 1 # 2]%Q = [1; 0]
  ∧ candidates_of init_matcher [0; 1] two_frames [1 # 2; 1 # 2]%Q 0
    = inr [Candidate 1 (1 # 2) "scene_1.jpg"; Candidate 0 (1 # 2) "scene_0.jpg"].
Proof. split; [reflexivity|]. split; vm_compute; reflexivity. Qed.

(** ** The selector *)

(** C4 -- sampling weights.  The weights handed to [random.choices] are the
    raw scores of the survivors, with no clamp.  For the text embedding
    (1, 0) and the unit-norm scene embeddings (1, 0) and (-3/5, 4/5), both
    frames survive at the first chunk and the weight list holds the
    negative score of the second.  With the single scene embedding (-1, 0)
    the only weight is -1: the total is not positive, [random.choices]
    raises, and the selector and the run raise with it instead of returning
    a frame. *)
Theorem negative_weight_reaches_random_choices :
  (∃ fs cands,
     final_scores_of None [1; 0]%Q [[1; 0]; [- (3 # 5); 4 # 5]]%Q [0; 1]
       = inr fs
     ∧ candidates_of init_matcher [0; 1] two_frames fs 0 = inr cands
     ∧ real_idx <$> cands = [0; 1]
     ∧ weights cands = score <$> cands
     ∧ Exists (λ w, (w < 0)%Q) (weights cands))
  ∧ (∀ r, find_best_match_with_rotation init_matcher [1; 0]%Q [[-1; 0]]%Q
            [0] one_frame 0 r
          = Raise ValueError_weights_total init_matcher)
  ∧ (∀ normalize rand,
       match_audio_to_frames ascii_lower ascii_word_search normalize
         init_matcher [("a", [1; 0]%Q)] [] [[-1; 0]]%Q one_frame rand
       = Raise ValueError_weights_total init_matcher).
Proof.
  split; [|split].
  - eexists _, _. split; [reflexivity|]. split; [vm_compute; reflexivity|].
    split; [reflexivity|]. split; [reflexivity|].
    apply Exists_cons_tl, Exists_cons_hd. reflexivity.
  - intros r. reflexivity.
  - intros normalize rand. vm_compute. reflexivity.
Qed.

Lemma argmax_from_spec fs : ∀ l i best_i,
  drop i fs = l → best_i < i → i ≤ length fs →
  (∀ j, j < i → (score_at fs j <= score_at fs best_i)%Q) →
  (∀ j, j < best_i → (score_at fs j < score_at fs best_i)%Q) →
  let b := argmax_from best_i (score_at fs best_i) i l in
  b < length fs
  ∧ (∀ j, j < length fs → (score_at fs j <= score_at fs b)%Q)
  ∧ (∀ j, j < b → (score_at fs j < score_at fs b)%Q).
Proof.
  induction l as [|x l IH]; intros i best_i Hd Hb Hi Hle Hlt; simpl.
  - assert (length fs ≤ i).
    { apply (f_equal length) in Hd. rewrite length_drop in Hd. simpl in Hd. lia. }
    split; [lia|]. split; [|done]. intros j Hj. apply Hle. lia.
  - assert (Hx : fs !! i = Some x).
    { rewrite <- (Nat.add_0_r i), <- lookup_drop, Hd. done. }
    assert (Hd' : drop (S i) fs = l).
    { erewrite drop_S in Hd by exact Hx. by inversion Hd. }
    assert (Hi' : S i ≤ length fs) by (apply lookup_lt_Some in Hx; lia).
    assert (Hsx : score_at fs i = x) by (unfold score_at; by rewrite Hx).
    unfold Qlt_bool.
    destruct (Qle_bool x (score_at fs best_i)) eqn:E; simpl.
    + apply Qle_bool_iff in E. apply (IH (S i) best_i); [done|lia|done| |done].
      intros j Hj. destruct (decide (j = i)) as [->|]; [by rewrite Hsx|].
      apply Hle. lia.
    + assert (Hgt : (score_at fs best_i < x)%Q).
      { apply Qnot_le_lt. intros H. apply Qle_bool_iff in H. congruence. }
      rewrite <- Hsx. rewrite <- Hsx in Hgt.
      apply (IH (S i) i); [done|lia|done| |].
      * intros j Hj. destruct (decide (j = i)) as [->|]; [apply Qle_refl|].
        apply Qlt_le_weak. eapply Qle_lt_trans; [apply Hle; lia|done].
      * intros j Hj. eapply Qle_lt_trans; [apply Hle; lia|done].
Qed.

Lemma argmax_spec fs :
  fs ≠ [] →
  ∃ b, argmax fs = inr b ∧ b < length fs
    ∧ (∀ j, j < length fs → (score_at fs j <= score_at fs b)%Q)
    ∧ (∀ j, j < b → (score_at fs j < score_at fs b)%Q).
Proof.
  destruct fs as [|x l]; [done|]. intros _. simpl.
  exists (argmax_from 0 x 1 l). split; [done|].
  apply (argmax_from_spec (x :: l) l 1 0); simpl; try done; try lia.
  intros j Hj. replace j with 0 by lia. apply Qle_refl.
Qed.

Lemma candidates_loop_length s pi ff fs cur n : ∀ sorted acc cs,
  candidates_loop s pi ff fs cur n sorted acc = inr cs →
  length acc ≤ length cs.
Proof.
  induction sorted as [|i sorted IH]; intros acc cs; cbn [candidates_loop].
  - intros [= <-]. done.
  - unfold index, rbind.
    destruct (pi !! i) as [ridx|]; [|done].
    destruct (ff !! ridx) as [f|]; [|done].
    destruct (passes_filter s (name f) cur n); [|apply IH].
    destruct (fs !! i) as [sc|]; [|done].
    destruct (_ <=? _).
    + intros [= <-]. rewrite length_app. lia.
    + intros H. apply IH in H. rewrite length_app in H. lia.
Qed.

(** When the loop ends with no candidate, it has visited every ranked
    position, found its frame and rejected it. *)
Lemma candidates_loop_nil s pi ff fs cur n : ∀ sorted,
  candidates_loop s pi ff fs cur n sorted [] = inr [] →
  ∀ i, i ∈ sorted →
    ∃ ridx f, pi !! i = Some ridx ∧ ff !! ridx = Some f
      ∧ passes_filter s (name f) cur n = false.
Proof.
  induction sorted as [|i sorted IH]; intros Hnil j Hj.
  { by apply elem_of_nil in Hj. }
  cbn [candidates_loop] in Hnil. unfold index, rbind in Hnil.
  destruct (pi !! i) as [ridx|] eqn:Hr; [|done].
  destruct (ff !! ridx) as [f|] eqn:Hf; [|done].
  destruct (passes_filter s (name f) cur n) eqn:Hp.
  - destruct (fs !! i) as [sc|]; [|done].
    destruct (_ <=? _).
    + inversion Hnil.
    + apply candidates_loop_length in Hnil. simpl in Hnil. lia.
  - apply elem_of_cons in Hj as [->|Hj]; [eauto|]. by apply IH.
Qed.

Lemma bonus_loop_length last : ∀ rest i fs fs',
  bonus_loop last i rest fs = inr fs' → length fs' = length fs.
Proof.
  induction rest as [|ridx rest IH]; intros i fs fs'; simpl.
  - by intros [= <-].
  - destruct (in_continuity_window ridx last); [|apply IH].
    unfold index. destruct (fs !! i); [|done]. simpl.
    intros H. apply IH in H. by rewrite length_insert in H.
Qed.

Lemma final_scores_of_length last text_emb pool_embeddings pool_indices fs :
  final_scores_of last text_emb pool_embeddings pool_indices = inr fs →
  length fs = length pool_embeddings.
Proof.
  unfold final_scores_of. destruct last as [l|].
  - intros H. apply bonus_loop_length in H. by rewrite length_base_scores in H.
  - intros [= <-]. apply length_base_scores.
Qed.

(** C6 -- exhaustion fallback.  On a non-empty pool where no candidate
    survives the filter, the selector returns the first frame of maximal
    final score, a frame the filter rejects, and commits it. *)
Theorem exhaustion_fallback (s : matcher) (text_emb : list Q)
    (pool_embeddings : list (list Q)) (pool_indices : list nat)
    (frame_files : list path) (current_chunk_idx : nat) (r : Q)
    (final_scores : list Q) :
  pool_indices ≠ [] →
  length pool_embeddings = length pool_indices →
  final_scores_of (last_selected_frame_idx s) text_emb pool_embeddings
    pool_indices = inr final_scores →
  candidates_of s pool_indices frame_files final_scores current_chunk_idx
    = inr [] →
  ∃ best ridx sc f,
    argmax final_scores = inr best
    ∧ pool_indices !! best = Some ridx
    ∧ final_scores !! best = Some sc
    ∧ frame_files !! ridx = Some f
    ∧ (∀ j x, final_scores !! j = Some x → (x <= sc)%Q)
    ∧ (∀ j x, j < best → final_scores !! j = Some x → (x < sc)%Q)
    ∧ passes_filter s (name f) current_chunk_idx (length pool_indices) = false
    ∧ find_best_match_with_rotation s text_emb pool_embeddings pool_indices
        frame_files current_chunk_idx r
      = Ok (ridx, sc) (commit s (Candidate ridx sc (name f)) current_chunk_idx).
Proof.
  intros Hne Hlen Hfs Hnil.
  pose proof (final_scores_of_length _ _ _ _ _ Hfs) as Hlfs.
  assert (Hfne : final_scores ≠ []).
  { intros ->. destruct pool_indices; simpl in *; [done|lia]. }
  destruct (argmax_spec final_scores Hfne) as (b & Hb & Hlt & Hmax & Hfirst).
  destruct (candidates_loop_nil _ _ _ _ _ _ _ Hnil b) as (ridx & f & Hr & Hf & Hp).
  { rewrite (sorted_indices_perm final_scores).
    apply list_elem_of_In, in_seq. lia. }
  destruct (lookup_lt_is_Some_2 final_scores b Hlt) as [sc Hsc].
  assert (Hsb : score_at final_scores b = sc) by (unfold score_at; by rewrite Hsc).
  exists b, ridx, sc, f. split; [done|]. split; [done|]. split; [done|].
  split; [done|]. split; [|split; [|split; [done|]]].
  - intros j x Hj. rewrite <- Hsb.
    replace x with (score_at final_scores j) by (unfold score_at; by rewrite Hj).
    apply Hmax. by apply lookup_lt_Some in Hj.
  - intros j x Hjb Hj. rewrite <- Hsb.
    replace x with (score_at final_scores j) by (unfold score_at; by rewrite Hj).
    by apply Hfirst.
  - unfold find_best_match_with_rotation, select_candidate.
    rewrite Hfs. cbn [rbind]. rewrite Hnil. cbn [rbind choose].
    rewrite Hb. cbn [rbind]. unfold index. rewrite Hr, Hsc. cbn [rbind].
    rewrite Hf. done.
Qed.

Lemma exhaustion_fallback_witness :
  ∃ best ridx sc f,
    argmax [1 # 2]%Q = inr best
    ∧ [0] !! best = Some ridx
    ∧ [1 # 2]%Q !! best = Some sc
    ∧ one_frame !! ridx = Some f
    ∧ (∀ j x, [1 # 2]%Q !! j = Some x → (x <= sc)%Q)
    ∧ (∀ j x, j < best → [1 # 2]%Q !! j = Some x → (x < sc)%Q)
    ∧ passes_filter used_once (name f) 1 (length [0]) = false
    ∧ find_best_match_with_rotation used_once [1]%Q [[1 # 2]]%Q [0]
        one_frame 1 (1 # 2)
      = Ok (ridx, sc) (commit used_once (Candidate ridx sc (name f)) 1).
Proof.
  apply (exhaustion_fallback used_once [1]%Q [[1 # 2]]%Q [0] one_frame 1
           (1 # 2) [1 # 2]%Q).
  - discriminate.
  - reflexivity.
  - reflexivity.
  - vm_compute. reflexivity.
Defined.

(** ** Failure on an empty index or an empty pool *)

Lemma find_best_match_empty_pool s text_emb frame_files cur r :
  find_best_match_with_rotation s text_emb [] [] frame_files cur r
  = Raise ValueError_argmax_empty s.
Proof.
  unfold find_best_match_with_rotation, select_candidate, final_scores_of.
  by destruct (last_selected_frame_idx s).
Qed.

Section Tracker_facts.
Variable lower : string → string.
Variable word_search : string → string → bool.

Lemma update_context_ledger s mentioned :
  let s' := (update_context s mentioned).1 in
  frame_usage_count s' = frame_usage_count s
  ∧ frame_last_used_at s' = frame_last_used_at s
  ∧ last_selected_frame_idx s' = last_selected_frame_idx s
  ∧ name_translations s' = name_translations s.
Proof.
  unfold update_context. destruct mentioned as [|c l].
  - by destruct (truthy _).
  - by destruct (decide _).
Qed.

Lemma get_search_pool_state s text character_map all_scene_ids :
  (get_search_pool lower word_search s text character_map all_scene_ids).2
  = (update_context s
       (extract_character_names lower word_search s text
          (known_characters_of character_map))).1.
Proof.
  unfold get_search_pool.
  destruct (update_context _ _) as [s' ctx]. simpl.
  destruct (truthy _); [|done]. by destruct (character_map_get _ _).
Qed.

Lemma get_search_pool_ledger s text character_map all_scene_ids :
  let s' := (get_search_pool lower word_search s text character_map
               all_scene_ids).2 in
  frame_usage_count s' = frame_usage_count s
  ∧ frame_last_used_at s' = frame_last_used_at s
  ∧ last_selected_frame_idx s' = last_selected_frame_idx s
  ∧ name_translations s' = name_translations s.
Proof. simpl. rewrite get_search_pool_state. apply update_context_ledger. Qed.

End Tracker_facts.

(** C5 (amended) -- empty index.  A run over no embedding at all fails at
    line 354, where the first embedding is read for the norm check: it
    raises [IndexError] before any segment is looked at, and the matcher is
    the one it was when the embeddings were loaded, so that neither the
    usage nor the context state has changed.  The code has no condition of its own for an empty
    pool: once that read has succeeded the array has a row, and the pool
    indices of a segment are never empty after the fall-back to all frames.
    The selector called by hand on an empty pool fails at the fallback's
    [np.argmax] of the empty score array, again with the matcher
    untouched. *)
Theorem empty_index_fails_before_matching
    (lower : string → string) (word_search : string → string → bool)
    (normalize : list Q → list Q) :
  (∀ s segments character_map frame_files rand,
     match_audio_to_frames lower word_search normalize s segments
       character_map [] frame_files rand
     = Raise IndexError s)
  ∧ (∀ first rest,
       ∃ first' rest',
         normalized_embeddings normalize (first :: rest)
         = inr (first' :: rest'))
  ∧ (∀ scene_id_to_idx search_pool first rest,
       pool_indices_of scene_id_to_idx search_pool (first :: rest) ≠ [])
  ∧ (∀ s text_emb frame_files chunk r,
       find_best_match_with_rotation s text_emb [] [] frame_files chunk r
       = Raise ValueError_argmax_empty s).
Proof.
  split; [reflexivity|]. split; [|split].
  - intros first rest. unfold normalized_embeddings.
    destruct (unit_norm first); simpl; eauto.
  - intros sidx pool first rest. unfold pool_indices_of.
    destruct (omap _ pool); simpl; discriminate.
  - intros. apply find_best_match_empty_pool.
Qed.

(** C5 as stated fails.  On the empty index the run stops with the
    [IndexError] of the read of line 354, not with a condition on the pool:
    no pool has been computed; the selector called on an empty pool stops
    with the [ValueError] of [np.argmax].  And these are not the only
    failures: with one scene of unit-norm embedding (0, 1) and the unit-norm
    text embedding (1, 0) the index is not empty and the run raises the
    [ValueError] of [random.choices]. *)
Lemma empty_index_is_not_the_only_failure :
  match_audio_to_frames ascii_lower ascii_word_search (λ v, v) init_matcher
    [("a", [1; 0]%Q)] [] [] [] (λ _, 1 # 2)
  = Raise IndexError init_matcher
  ∧ find_best_match_with_rotation init_matcher [1; 0]%Q [] [] [] 0 (1 # 2)
    = Raise ValueError_argmax_empty init_matcher
  ∧ match_audio_to_frames ascii_lower ascii_word_search (λ v, v) init_matcher
      [("a", [1; 0]%Q)] [] [[0; 1]]%Q one_frame (λ _, 1 # 2)
    = Raise ValueError_weights_total init_matcher.
Proof. split; [|split]; vm_compute; reflexivity. Qed.

(** ** The context tracker *)

Lemma truthy_Some c : truthy (Some c) = true ↔ c ≠ "".
Proof.
  simpl. rewrite negb_true_iff. split.
  - intros H ->. by rewrite String.eqb_refl in H.
  - intros H. apply String.eqb_neq. done.
Qed.

(** C8 -- context tracker.  An active character exists when the code's test
    [if self.active_character] holds: it is set and is not the empty string.
    For the list [mentioned] of names found in the text and the base label
    [label] of the call:
    - when a name is found, the first one is the active character after the
      call, and the label is the confirm label if it was already the active
      character and the switch label otherwise;
    - when none is found the active character is unchanged, and the label
      is the hold label if an active character exists;
    - when an active character exists after the call, the pool is its scene
      list and the context is the label if that list is not empty, and the
      pool is all scene ids and the context the label with the pool-empty
      annotation if it is empty. *)
Theorem get_search_pool_spec
    (lower : string → string) (word_search : string → string → bool)
    (s : matcher) (text : string) (character_map : list (string * list Z))
    (all_scene_ids : list Z) :
  let mentioned :=
    extract_character_names lower word_search s text
      (known_characters_of character_map) in
  let out :=
    get_search_pool lower word_search s text character_map all_scene_ids in
  let pool := out.1.1 in
  let context := out.1.2 in
  let s' := out.2 in
  ∃ label,
    (∀ c rest, mentioned = c :: rest →
       active_character s' = Some c
       ∧ (Some c ≠ active_character s → label = label_switch c)
       ∧ (Some c = active_character s → label = label_confirm c))
    ∧ (mentioned = [] →
       active_character s' = active_character s
       ∧ ∀ c, active_character s = Some c → c ≠ "" → label = label_hold c)
    ∧ (∀ c, active_character s' = Some c → c ≠ "" →
       (character_map_get character_map c ≠ [] →
          pool = character_map_get character_map c ∧ context = label)
       ∧ (character_map_get character_map c = [] →
          pool = all_scene_ids
          ∧ context = label +:+ pool_empty_fallback)).
Proof.
  intros mentioned out pool context s'.
  subst pool context s' out. unfold get_search_pool. fold mentioned.
  exists (update_context s mentioned).2.
  split; [|split].
  - intros c rest Hm. rewrite Hm. unfold update_context.
    destruct (decide (Some c ≠ active_character s)) as [Hne|He].
    + cbn [active_character set_active_character].
      destruct (truthy (Some c)); [destruct (character_map_get _ _)|];
        cbn [fst snd active_character set_active_character]; done.
    + apply dec_stable in He. symmetry in He. rewrite He.
      destruct (truthy (Some c)); [destruct (character_map_get _ _)|];
        cbn [fst snd]; (split; [done|]); split; congruence.
  - intros Hm. rewrite Hm. unfold update_context.
    destruct (truthy (active_character s)) eqn:Ht; rewrite Ht.
    + destruct (character_map_get _ _); cbn [fst snd]; (split; [done|]);
        intros c Hc _; by rewrite Hc.
    + cbn [fst snd]. split; [done|]. intros c Hc Hne. rewrite Hc in Ht.
      apply truthy_Some in Hne. congruence.
  - intros c. destruct (update_context s mentioned) as [s1 label].
    destruct (truthy (active_character s1)) eqn:Ht.
    + destruct (active_character s1) as [c1|] eqn:Ha; [|done].
      change (default "" (Some c1)) with c1.
      destruct (character_map_get character_map c1) as [|x l] eqn:Hg;
        cbn [fst snd]; rewrite Ha; intros [= <-] Hne;
        rewrite Hg; split; done.
    + cbn [fst snd]. intros Hc Hne. rewrite Hc in Ht.
      apply truthy_Some in Hne. congruence.
Qed.

(** The stickiness scenario of the tracker on ASCII text. *)
Example context_switch_then_hold :
  let cm := [("miguel", [1; 2]%Z); ("gwen", [3]%Z); ("none", [4]%Z)] in
  let o1 := get_search_pool ascii_lower ascii_word_search init_matcher
              "Miguel is here" cm [1; 2; 3; 4]%Z in
  let o2 := get_search_pool ascii_lower ascii_word_search o1.2
              "he jumps" cm [1; 2; 3; 4]%Z in
  let o3 := get_search_pool ascii_lower ascii_word_search o2.2
              "then Gwen arrives" cm [1; 2; 3; 4]%Z in
  o1.1 = ([1; 2]%Z, label_switch "miguel")
  ∧ o2.1 = ([1; 2]%Z, label_hold "miguel")
  ∧ o3.1 = ([3]%Z, label_switch "gwen").
Proof. vm_compute. done. Qed.

(** ** Vector normalization *)

Lemma sum_squares_nonneg vec : (0 <= sum_squares vec)%R.
Proof.
  induction vec as [|x vec IH]; simpl; [lra|].
  pose proof (Rle_0_sqr x) as H. unfold Rsqr in H. lra.
Qed.

Lemma norm_nonneg vec : (0 <= norm vec)%R.
Proof. apply sqrt_pos. Qed.

Lemma sum_squares_zeros n : sum_squares (replicate n 0%R) = 0%R.
Proof. induction n as [|n IH]; simpl; [done|]. rewrite IH. lra. Qed.

Lemma norm_zeros n : norm (replicate n 0%R) = 0%R.
Proof. unfold norm. rewrite sum_squares_zeros. apply sqrt_0. Qed.

(** C10 -- [normalize_vector].  Every vector falls in one of two cases: its
    norm is positive and the result is the vector divided by the norm, or
    its norm is zero and the result is the vector itself.  The zero vector
    of any length is returned unchanged, so its result has norm 0, not 1. *)
Theorem normalize_vector_total :
  (∀ vec,
     ((0 < norm vec)%R
      ∧ normalize_vector vec = map (λ x, (x / norm vec)%R) vec)
     ∨ (norm vec = 0%R ∧ normalize_vector vec = vec))
  ∧ ∀ n,
      normalize_vector (replicate n 0%R) = replicate n 0%R
      ∧ norm (normalize_vector (replicate n 0%R)) ≠ 1%R.
Proof.
  split.
  - intros vec. unfold normalize_vector.
    destruct (Rlt_dec 0 (norm vec)) as [Hpos|Hnpos]; [by left|].
    right. split; [|done]. pose proof (norm_nonneg vec). lra.
  - intros n. assert (H : normalize_vector (replicate n 0%R) = replicate n 0%R).
    { unfold normalize_vector. rewrite norm_zeros.
      destruct (Rlt_dec 0 0) as [Hlt|_]; [lra|done]. }
    split; [done|]. rewrite H, norm_zeros. lra.
Qed.

(** A vector of positive norm is scaled to unit norm. *)
Lemma sum_squares_scale vec k :
  sum_squares (map (λ x, (x / k)%R) vec) = (sum_squares vec / (k * k))%R.
Proof.
  induction vec as [|x vec IH]; simpl.
  - unfold Rdiv. lra.
  - rewrite IH. destruct (Req_dec k 0) as [->|Hk].
    + unfold Rdiv. rewrite Rmult_0_l, Rinv_0. lra.
    + field. done.
Qed.

Lemma normalize_vector_unit vec :
  (0 < norm vec)%R → norm (normalize_vector vec) = 1%R.
Proof.
  intros Hpos. unfold normalize_vector.
  destruct (Rlt_dec 0 (norm vec)) as [_|H]; [|contradiction].
  unfold norm at 1. rewrite sum_squares_scale.
  unfold norm. rewrite sqrt_sqrt by apply sum_squares_nonneg.
  unfold norm in Hpos.
  replace (sum_squares vec / sum_squares vec)%R with 1%R.
  - apply sqrt_1.
  - field. intros H0. rewrite H0, sqrt_0 in Hpos. lra.
Qed.

(** ** The normalisation of the embeddings: lines 353-358 *)

Lemma sum_squares_Q2R (v : list Q) :
  sum_squares (map Q2R v) = Q2R (dot v v).
Proof.
  induction v as [|x v IH]; simpl.
  - unfold Q2R. simpl. lra.
  - rewrite IH, Q2R_plus, Q2R_mult. done.
Qed.

Lemma allclose_tolerance_small :
  (0 < Q2R allclose_tolerance < 1)%R.
Proof.
  split.
  - replace 0%R with (Q2R 0) by (unfold Q2R; simpl; lra).
    apply Qlt_Rlt. reflexivity.
  - replace 1%R with (Q2R 1) by (unfold Q2R; simpl; lra).
    apply Qlt_Rlt. reflexivity.
Qed.


(** [normalize_vector] on the one-row array [[1/2]]. *)
Lemma normalize_vector_half :
  normalize_vector [Q2R (1 # 2)] = [Q2R 1].
Proof.
  assert (Hh : Q2R (1 # 2) = (1 / 2)%R) by (unfold Q2R; simpl; lra).
  assert (H1 : Q2R 1 = 1%R) by (unfold Q2R; simpl; lra).
  rewrite Hh, H1.
  assert (Hn : norm [(1 / 2)%R] = (1 / 2)%R).
  { unfold norm. simpl.
    replace (1 / 2 * (1 / 2) + 0)%R with ((1 / 2) * (1 / 2))%R by lra.
    apply sqrt_square. lra. }
  unfold normalize_vector. rewrite Hn.
  destruct (Rlt_dec 0 (1 / 2)) as [_|Hn']; [|lra].
  simpl. f_equal. field.
Qed.

(** The embedding (1/2) does not have unit norm; [normalize_vector] maps it
    to (1), and a run over it is the run over (1): the frame is scored 1. *)
Lemma match_audio_to_frames_normalizes normalize rand :
  normalize [1 # 2]%Q = [1]%Q →
  match_audio_to_frames ascii_lower ascii_word_search normalize init_matcher
    [("a", [1]%Q)] [] [[1 # 2]]%Q one_frame rand
  = match_audio_to_frames ascii_lower ascii_word_search normalize init_matcher
      [("a", [1]%Q)] [] [[1]]%Q one_frame rand
  ∧ ∃ res sf,
      match_audio_to_frames ascii_lower ascii_word_search normalize
        init_matcher [("a", [1]%Q)] [] [[1 # 2]]%Q one_frame rand
      = Ok [res] sf
      ∧ similarity_score res = 1%Q.
Proof.
  intros Hn.
  assert (match_audio_to_frames ascii_lower ascii_word_search normalize init_matcher
    [("a", [1]%Q)] [] [[1 # 2]]%Q one_frame rand
  = match_audio_to_frames ascii_lower ascii_word_search normalize init_matcher
      [("a", [1]%Q)] [] [[1]]%Q one_frame rand) as Heq.
  { unfold match_audio_to_frames, normalized_embeddings.
    change (unit_norm [1 # 2]%Q) with false.
    change (unit_norm [1]%Q) with true. cbn [map]. rewrite Hn. done. }
  split; [exact Heq|]. rewrite Heq.
  eexists _, _. split; [vm_compute; reflexivity|]. reflexivity.
Qed.

(** ** What the selector returns *)

Lemma candidates_loop_Forall (P : candidate → Prop) s pi ff fs cur n :
  (∀ i ridx f sc, pi !! i = Some ridx → ff !! ridx = Some f →
     fs !! i = Some sc → passes_filter s (name f) cur n = true →
     P (Candidate ridx sc (name f))) →
  ∀ sorted acc cs,
    Forall P acc →
    candidates_loop s pi ff fs cur n sorted acc = inr cs → Forall P cs.
Proof.
  intros HP. induction sorted as [|i sorted IH]; intros acc cs Hacc;
    cbn [candidates_loop].
  - by intros [= <-].
  - unfold index, rbind.
    destruct (pi !! i) as [ridx|] eqn:Hr; [|done].
    destruct (ff !! ridx) as [f|] eqn:Hf; [|done].
    destruct (passes_filter s (name f) cur n) eqn:Hp; [|by apply IH].
    destruct (fs !! i) as [sc|] eqn:Hsc; [|done].
    assert (Forall P (acc ++ [Candidate ridx sc (name f)])).
    { apply Forall_app. split; [done|]. repeat constructor. eauto. }
    destruct (_ <=? _); [by intros [= <-]|by apply IH].
Qed.

Lemma random_choices_elem {A} (population : list A) ws r x :
  random_choices population ws r = inr x → x ∈ population.
Proof.
  unfold random_choices, rbind, index.
  destruct (accumulate ws !! _); [|done].
  destruct (Qle_bool _ _); [done|].
  destruct (population !! _) eqn:E; [|done].
  intros [= <-]. by eapply list_elem_of_lookup_2.
Qed.

(** The winner is either one of the survivors, or the fallback frame when
    there is no survivor; in both cases it names a frame of the list. *)
Lemma select_candidate_inv s text_emb pe pi ff cur r chosen :
  select_candidate s text_emb pe pi ff cur r = inr chosen →
  ∃ fs cands,
    final_scores_of (last_selected_frame_idx s) text_emb pe pi = inr fs
    ∧ candidates_of s pi ff fs cur = inr cands
    ∧ from_frames ff chosen
    ∧ (cands = []
       ∨ (chosen ∈ cands
          ∧ passes_filter s (frame_name chosen) cur (length pi) = true)).
Proof.
  unfold select_candidate, rbind.
  destruct (final_scores_of _ _ _ _) as [|fs]; [done|].
  destruct (candidates_of s pi ff fs cur) as [|cands] eqn:Hc; [done|].
  intros Hch. exists fs, cands. split; [done|]. split; [done|].
  assert (HF : Forall (λ c, from_frames ff c
                ∧ passes_filter s (frame_name c) cur (length pi) = true) cands).
  { eapply candidates_loop_Forall; [|constructor|exact Hc].
    intros i ridx f sc _ Hf _ Hp. split; [|done]. by exists f. }
  destruct cands as [|c cs].
  - split; [|by left]. cbn [choose] in Hch. unfold rbind, index in Hch.
    destruct (argmax fs) as [|b]; [done|].
    destruct (pi !! b) as [ridx|]; [|done].
    destruct (fs !! b) as [sc|]; [|done].
    destruct (ff !! ridx) as [f|] eqn:Hf; [|done].
    inversion Hch; subst. by exists f.
  - cbn [choose] in Hch. apply random_choices_elem in Hch.
    rewrite Forall_forall in HF. destruct (HF chosen Hch) as [H1 H2].
    split; [done|]. by right.
Qed.

Lemma usage_count_of_commit s chosen cur nm :
  usage_count_of (commit s chosen cur) nm
  = if decide (frame_name chosen = nm) then S (usage_count_of s nm)
    else usage_count_of s nm.
Proof.
  unfold usage_count_of at 1. cbn [commit frame_usage_count].
  rewrite lookup_insert. destruct (decide _) as [->|]; done.
Qed.

Section Run.
Variable lower : string → string.
Variable word_search : string → string → bool.
Variable character_map : list (string * list Z).
Variable all_scene_ids : list Z.
Variable scene_id_to_idx : gmap Z nat.
Variable frame_embeddings : list (list Q).
Variable frame_files : list path.

#[local] Abbreviation select_ := (select lower word_search).
#[local] Abbreviation survivors_ s :=
  (survivors_of lower word_search s character_map all_scene_ids
     scene_id_to_idx frame_embeddings frame_files).
#[local] Abbreviation loop s :=
  (match_loop lower word_search s character_map all_scene_ids
     scene_id_to_idx frame_embeddings frame_files).

Lemma usage_count_of_get_search_pool s text nm :
  usage_count_of
    (get_search_pool lower word_search s text character_map
       all_scene_ids).2 nm
  = usage_count_of s nm.
Proof.
  unfold usage_count_of.
  by destruct (get_search_pool_ledger lower word_search s text
                 character_map all_scene_ids) as (-> & _).
Qed.

(** One turn of the loop: the result records the chunk and the text, its
    frame is the chosen one, the usage count of that frame goes up by one
    and no other count changes; a frame chosen at or over the cap comes
    from the fallback. *)
Lemma select_inv s chunk text text_emb r res s2 :
  select_ s character_map all_scene_ids scene_id_to_idx frame_embeddings
    frame_files chunk text text_emb r = Ok res s2 →
  chunk_index res = chunk ∧ audio_text res = text
  ∧ frame_files !! frame_index res = Some (frame_file res)
  ∧ (∀ nm, usage_count_of s2 nm
           = if decide (name (frame_file res) = nm)
             then S (usage_count_of s nm) else usage_count_of s nm)
  ∧ (3 ≤ usage_count_of s (name (frame_file res)) →
     survivors_ s chunk text text_emb = inr []).
Proof.
  unfold select, survivors_of.
  pose proof (usage_count_of_get_search_pool s text) as Hu.
  destruct (get_search_pool _ _ _ _ _ _) as [[pool ctx] s1].
  cbn [fst snd] in *. unfold rbind.
  destruct (gather _ _) as [|pe]; [done|].
  unfold find_best_match_with_rotation.
  destruct (select_candidate _ _ _ _ _ _ _) as [|chosen] eqn:Hsel; [done|].
  apply select_candidate_inv in Hsel
    as (fs & cands & Hfs & Hc & (f & Hf & Hn) & Hcases).
  unfold index. rewrite Hf. intros [= <- <-]. cbn.
  split; [done|]. split; [done|]. split; [done|]. split.
  - intros nm. rewrite usage_count_of_commit, Hn, Hu. done.
  - intros Hcap. rewrite Hfs, Hc.
    destruct Hcases as [->|[_ Hp]]; [done|].
    rewrite Hn in Hp. unfold passes_filter, max_frame_usage in Hp.
    rewrite Hu in Hp.
    destruct (Nat.leb_spec 3 (usage_count_of s (name f))); [done|lia].
Qed.

Lemma match_loop_app rand : ∀ l1 l2 s chunk acc,
  loop s rand chunk (l1 ++ l2) acc
  = match loop s rand chunk l1 acc with
    | Ok res s' => loop s' rand (chunk + length l1) l2 res
    | Raise e s' => Raise e s'
    end.
Proof.
  induction l1 as [|[text emb] l1 IH]; intros l2 s chunk acc.
  - simpl. by rewrite Nat.add_0_r.
  - simpl. destruct (select _ _ _ _ _ _ _ _ _ _ _ _) as [res s'|]; [|done].
    rewrite IH. by replace (S chunk + length l1) with (chunk + S (length l1)) by lia.
Qed.

(** The results of the loop: one more per segment, in order. *)
Lemma match_loop_results rand : ∀ segments s chunk acc results sf,
  loop s rand chunk segments acc = Ok results sf →
  ∃ new, results = acc ++ new ∧ length new = length segments
    ∧ ∀ j res, new !! j = Some res →
        chunk_index res = chunk + j
        ∧ ∃ emb, segments !! j = Some (audio_text res, emb).
Proof.
  induction segments as [|[text emb] segments IH];
    intros s chunk acc results sf; simpl.
  - intros [= <- <-]. exists []. rewrite app_nil_r. split; [done|].
    split; [done|]. intros j res Hj. by rewrite lookup_nil in Hj.
  - destruct (select _ _ _ _ _ _ _ _ _ _ _ _) as [res s'|] eqn:Hsel; [|done].
    intros Hl. apply IH in Hl as (new & -> & Hlen & Hnew).
    apply select_inv in Hsel as (Hc & Ht & _).
    exists (res :: new). rewrite <- app_assoc. split; [done|].
    split; [simpl; lia|].
    intros [|j] res' Hj; simpl in Hj.
    + inversion Hj; subst res'. split; [lia|]. exists emb. by rewrite Ht.
    + destruct (Hnew j res' Hj) as [Hc' He]. split; [lia|]. done.
Qed.

Lemma picks_of_snoc i results res :
  picks_of i (results ++ [res])
  = picks_of i results + (if decide (frame_index res = i) then 1 else 0).
Proof.
  unfold picks_of. rewrite filter_app, length_app, filter_cons, filter_nil.
  by destruct (decide _).
Qed.

Lemma match_loop_ledger rand : ∀ segments s chunk acc results sf,
  loop s rand chunk segments acc = Ok results sf →
  ledger_bounds_picks frame_files s acc →
  ledger_bounds_picks frame_files sf results.
Proof.
  induction segments as [|[text emb] segments IH];
    intros s chunk acc results sf; simpl.
  - by intros [= <- <-].
  - destruct (select _ _ _ _ _ _ _ _ _ _ _ _) as [res s'|] eqn:Hsel; [|done].
    intros Hl Hinv. eapply IH; [exact Hl|].
    apply select_inv in Hsel as (_ & _ & Hf & Hu & _).
    intros i f Hi. rewrite picks_of_snoc, Hu. specialize (Hinv i f Hi).
    destruct (decide (frame_index res = i)) as [<-|].
    + rewrite Hf in Hi. inversion Hi; subst f.
      rewrite decide_True by done. lia.
    + destruct (decide _); lia.
Qed.

Lemma picks_of_last_occurrence i : ∀ results,
  0 < picks_of i results →
  ∃ k res, results !! k = Some res ∧ frame_index res = i
    ∧ picks_of i (take k results) + 1 = picks_of i results.
Proof.
  induction results as [|r results IH] using rev_ind.
  - unfold picks_of. simpl. lia.
  - rewrite picks_of_snoc. destruct (decide (frame_index r = i)) as [Hi|Hi].
    + intros _. exists (length results), r.
      rewrite lookup_app_r, Nat.sub_diag by lia.
      rewrite take_app_length. done.
    + rewrite Nat.add_0_r. intros Hpos.
      destruct (IH Hpos) as (k & res & Hk & Hres & Hp).
      pose proof (lookup_lt_Some _ _ _ Hk) as Hlt.
      exists k, res. rewrite lookup_app_l by done.
      rewrite take_app_le by lia. done.
Qed.

(** C7 -- usage cap.  In a run of the matching loop from chunk 0, if the
    frame chosen for segment [k] had already been chosen 3 times or more
    for the segments before it, then the fallback fired at segment [k]: no
    candidate survived the filter there.  Hence a frame chosen more than 3
    times in the run was chosen by the fallback at least once. *)
Theorem usage_cap_or_fallback (s : matcher) (rand : nat → Q)
    (segments : list (string * list Q)) (results : list match_result)
    (sf : matcher) :
  match_loop lower word_search s character_map all_scene_ids
    scene_id_to_idx frame_embeddings frame_files rand 0 segments []
    = Ok results sf →
  (∀ k res,
     results !! k = Some res →
     3 ≤ picks_of (frame_index res) (take k results) →
     fallback_fired lower word_search character_map all_scene_ids
       scene_id_to_idx frame_embeddings frame_files s rand segments
       results k)
  ∧ (∀ i,
       3 < picks_of i results →
       ∃ k res,
         results !! k = Some res ∧ frame_index res = i
         ∧ fallback_fired lower word_search character_map all_scene_ids
             scene_id_to_idx frame_embeddings frame_files s rand segments
             results k).
Proof.
  intros Hrun.
  assert (Hpick : ∀ k res,
     results !! k = Some res →
     3 ≤ picks_of (frame_index res) (take k results) →
     fallback_fired lower word_search character_map all_scene_ids
       scene_id_to_idx frame_embeddings frame_files s rand segments
       results k).
  { intros k res Hres Hcap.
    destruct (match_loop_results rand _ _ _ _ _ _ Hrun)
      as (all & Hall & Hlall & _). simpl in Hall. subst all.
    destruct (lookup_lt_is_Some_2 segments k) as [[text text_emb] Hseg].
    { rewrite <- Hlall. by eapply lookup_lt_Some. }
    rewrite <- (take_drop_middle segments k _ Hseg) in Hrun.
    rewrite match_loop_app in Hrun.
    destruct (loop s rand 0 (take k segments) []) as [resk sk|] eqn:Hk;
      [|done].
    pose proof (lookup_lt_Some _ _ _ Hseg) as Hlt.
    rewrite length_take_le in Hrun by lia. simpl in Hrun.
    assert (Hinv : ledger_bounds_picks frame_files sk resk).
    { eapply match_loop_ledger; [exact Hk|]. intros i f _. unfold picks_of.
      simpl. lia. }
    pose proof Hk as Hprefix.
    apply match_loop_results in Hk as (new & -> & Hlen & _). simpl in *.
    rewrite length_take_le in Hlen by lia.
    cbn [match_loop] in Hrun.
    destruct (select _ _ _ _ _ _ _ _ _ _ _ _) as [res' sk'|] eqn:Hsel;
      [|done].
    apply (match_loop_results rand) in Hrun as (rest & -> & _ & _).
    assert (Htake : take k ((new ++ [res']) ++ rest) = new).
    { rewrite <- app_assoc, take_app_length'; done. }
    assert (res' = res) as ->.
    { rewrite <- app_assoc, lookup_app_r in Hres by lia.
      rewrite Hlen, Nat.sub_diag in Hres. simpl in Hres. congruence. }
    rewrite Htake in *. exists text, text_emb, sk.
    rewrite Htake. split; [done|]. split; [done|].
    apply select_inv in Hsel as (_ & _ & Hf & _ & Hfb).
    apply Hfb. specialize (Hinv _ _ Hf). lia. }
  split; [exact Hpick|].
  intros i Hi.
  destruct (picks_of_last_occurrence i results ltac:(lia))
    as (k & res & Hk & Hres & Hp).
  exists k, res. split; [done|]. split; [done|].
  apply (Hpick k res Hk). rewrite Hres. lia.
Qed.

End Run.

Lemma usage_cap_or_fallback_witness :
  (∀ k res,
     demo_results !! k = Some res →
     3 ≤ picks_of (frame_index res) (take k demo_results) →
     fallback_fired ascii_lower ascii_word_search [] [0%Z] {[0%Z := 0]}
       [[1]]%Q one_frame init_matcher (λ _, 1 # 2) four_segments
       demo_results k)
  ∧ (∀ i,
       3 < picks_of i demo_results →
       ∃ k res,
         demo_results !! k = Some res ∧ frame_index res = i
         ∧ fallback_fired ascii_lower ascii_word_search [] [0%Z]
             {[0%Z := 0]} [[1]]%Q one_frame init_matcher (λ _, 1 # 2)
             four_segments demo_results k).
Proof.
  apply (usage_cap_or_fallback ascii_lower ascii_word_search [] [0%Z]
           {[0%Z := 0]} [[1]]%Q one_frame init_matcher (λ _, 1 # 2)
           four_segments demo_results demo_final).
  vm_compute. reflexivity.
Defined.

(** In the run of four segments over one frame, the frame is chosen four
    times and the fourth pick is the fallback's. *)
Example fourth_pick_is_fallback :
  frame_index <$> demo_results = [0; 0; 0; 0]
  ∧ picks_of 0 demo_results = 4
  ∧ fallback_fired ascii_lower ascii_word_search [] [0%Z] {[0%Z := 0]}
      [[1]]%Q one_frame init_matcher (λ _, 1 # 2) four_segments
      demo_results 3.
Proof.
  split; [vm_compute; reflexivity|]. split; [vm_compute; reflexivity|].
  eexists "d", [1]%Q, _. split; [reflexivity|].
  split; vm_compute; reflexivity.
Qed.

(** ** When the run returns *)

Lemma bisect_loop_bound a x : ∀ fuel lo hi,
  lo ≤ hi → lo ≤ bisect_loop fuel a x lo hi ≤ hi.
Proof.
  induction fuel as [|fuel IH]; intros lo hi Hle; cbn [bisect_loop]; [lia|].
  destruct (Nat.ltb_spec lo hi) as [Hlt|]; [|lia].
  pose proof (Nat.div_mod_eq (lo + hi) 2) as Hd.
  pose proof (Nat.mod_upper_bound (lo + hi) 2 ltac:(lia)) as Hm.
  destruct (Qlt_bool _ _).
  - specialize (IH lo ((lo + hi) / 2) ltac:(lia)). lia.
  - specialize (IH (S ((lo + hi) / 2)) hi ltac:(lia)). lia.
Qed.

Lemma accumulate_from_pos : ∀ ws acc,
  (0 <= acc)%Q → Forall (λ w, (0 < w)%Q) ws →
  Forall (λ w, (0 < w)%Q) (accumulate_from acc ws).
Proof.
  induction ws as [|w ws IH]; intros acc Hacc Hws; simpl; [constructor|].
  inversion Hws as [|? ? Hw Hws']; subst.
  assert (0 < acc + w)%Q by Lqa.lra.
  constructor; [done|]. apply IH; [Lqa.lra|done].
Qed.

Lemma accumulate_pos ws :
  Forall (λ w, (0 < w)%Q) ws → Forall (λ w, (0 < w)%Q) (accumulate ws).
Proof.
  destruct ws as [|w ws]; simpl; [done|].
  intros Hws. inversion Hws; subst. constructor; [done|].
  apply accumulate_from_pos; [Lqa.lra|done].
Qed.

Lemma length_accumulate_from : ∀ ws acc,
  length (accumulate_from acc ws) = length ws.
Proof. induction ws as [|w ws IH]; intros acc; simpl; [done|]. by rewrite IH. Qed.

Lemma length_accumulate ws : length (accumulate ws) = length ws.
Proof. destruct ws; simpl; [done|]. by rewrite length_accumulate_from. Qed.

Lemma random_choices_total {A} (population : list A) ws r :
  population ≠ [] → length ws = length population →
  Forall (λ w, (0 < w)%Q) ws →
  ∃ x, random_choices population ws r = inr x.
Proof.
  intros Hne Hlen Hpos. unfold random_choices, rbind, index.
  assert (Hn : 0 < length population) by (destruct population; simpl; [done|lia]).
  destruct (lookup_lt_is_Some_2 (accumulate ws) (length (accumulate ws) - 1))
    as [total Ht]. { rewrite length_accumulate. lia. }
  rewrite Ht.
  assert (Htp : (0 < total)%Q).
  { apply accumulate_pos in Hpos. rewrite Forall_forall in Hpos.
    apply Hpos. by eapply list_elem_of_lookup_2. }
  destruct (Qle_bool total 0) eqn:E.
  { apply Qle_bool_iff in E. Lqa.lra. }
  pose proof (bisect_loop_bound (accumulate ws) (r * total)%Q
                (length population - 1 - 0) 0 (length population - 1)
                ltac:(lia)) as Hb.
  unfold bisect.
  destruct (lookup_lt_is_Some_2 population
              (bisect_loop (length population - 1 - 0) (accumulate ws)
                 (r * total) 0 (length population - 1))) as [x Hx]; [lia|].
  rewrite Hx. eauto.
Qed.

Lemma gather_total {A} (a : list A) : ∀ indices,
  Forall (λ i, i < length a) indices →
  ∃ xs, gather a indices = inr xs ∧ length xs = length indices
    ∧ ∀ x, x ∈ xs → x ∈ a.
Proof.
  induction indices as [|i indices IH]; intros Hb; simpl.
  - exists []. split; [done|]. split; [done|]. intros x Hx.
    by apply elem_of_nil in Hx.
  - inversion Hb as [|? ? Hi Hb']; subst.
    destruct (IH Hb') as (xs & -> & Hlen & Hin).
    unfold index. destruct (lookup_lt_is_Some_2 a i Hi) as [x Hx].
    rewrite Hx. simpl. exists (x :: xs). split; [done|].
    split; [simpl; lia|]. intros y Hy.
    apply elem_of_cons in Hy as [->|Hy]; [|by apply Hin].
    by eapply list_elem_of_lookup_2.
Qed.

Lemma final_scores_total last text_emb pe pi :
  length pe = length pi →
  (∀ e, e ∈ pe → (0 < dot e text_emb)%Q) →
  ∃ fs, final_scores_of last text_emb pe pi = inr fs
    ∧ length fs = length pi
    ∧ Forall (λ x, (0 < x)%Q) fs.
Proof.
  intros Hlen Hpos.
  assert (Hbase : ∀ i b, base_scores text_emb pe !! i = Some b → (0 < b)%Q).
  { intros i b. unfold base_scores. rewrite list_lookup_fmap.
    destruct (pe !! i) as [e|] eqn:He; [|done]. intros [= <-].
    apply Hpos. by eapply list_elem_of_lookup_2. }
  destruct last as [last|].
  - destruct (final_scores_of_Some last text_emb pe pi Hlen)
      as (fs & Hr & Hl & Hfs).
    exists fs. split; [done|]. split; [done|].
    apply Forall_lookup. intros i x Hx.
    assert (Hi : i < length pi) by (apply lookup_lt_Some in Hx; lia).
    destruct (lookup_lt_is_Some_2 pi i Hi) as [ridx Hridx].
    destruct (lookup_lt_is_Some_2 (base_scores text_emb pe) i) as [b Hb].
    { rewrite length_base_scores. lia. }
    rewrite (Hfs i ridx b Hridx Hb) in Hx. specialize (Hbase i b Hb).
    destruct (in_continuity_window ridx last); inversion Hx; subst; [|done].
    unfold continuity_bonus. Lqa.lra.
  - exists (base_scores text_emb pe). split; [done|].
    split; [by rewrite length_base_scores|].
    apply Forall_lookup. exact Hbase.
Qed.

Lemma choose_total pi ff fs cands r :
  length fs = length pi → fs ≠ [] →
  Forall (λ i, i < length ff) pi →
  Forall (λ c, (0 < score c)%Q) cands →
  ∃ chosen, choose pi ff fs cands r = inr chosen.
Proof.
  intros Hlen Hne Hb Hpos. destruct cands as [|c cs]; cbn [choose].
  - destruct (argmax_spec fs Hne) as (b & -> & Hlt & _). cbn [rbind].
    unfold index.
    destruct (lookup_lt_is_Some_2 pi b ltac:(lia)) as [ridx Hr].
    rewrite Hr. cbn [rbind].
    destruct (lookup_lt_is_Some_2 fs b Hlt) as [sc ->]. cbn [rbind].
    rewrite Forall_lookup in Hb.
    destruct (lookup_lt_is_Some_2 ff ridx (Hb _ _ Hr)) as [f ->].
    cbn [rbind]. eauto.
  - apply random_choices_total; [done|unfold weights; by rewrite length_map|].
    unfold weights. by apply Forall_fmap.
Qed.

Lemma pool_indices_of_bound (sidx : gmap Z nat) pool
    (embs : list (list Q)) n :
  (∀ k v, sidx !! k = Some v → v < n) → length embs = n → embs ≠ [] →
  pool_indices_of sidx pool embs ≠ []
  ∧ Forall (λ i, i < n) (pool_indices_of sidx pool embs).
Proof.
  intros Hb Hlen Hne. unfold pool_indices_of.
  destruct (omap _ pool) as [|i l] eqn:E.
  - split.
    + destruct embs; simpl; done.
    + apply Forall_forall. intros i Hi.
      apply list_elem_of_In, in_seq in Hi. lia.
  - split; [done|]. rewrite <- E. apply Forall_forall. intros j Hj.
    apply list_elem_of_omap in Hj as (k & _ & Hk). by eapply Hb.
Qed.

Lemma build_scene_index_bound : ∀ frame_files idx acc,
  (∀ k v, acc.1 !! k = Some v → v < idx) →
  ∀ k v, (build_scene_index idx frame_files acc).1 !! k = Some v →
    v < idx + length frame_files.
Proof.
  induction frame_files as [|f frame_files IH]; intros idx acc Hacc k v; simpl.
  - intros H. apply Hacc in H. lia.
  - intros H. apply IH in H; [lia|]. cbn [fst]. intros k' v'.
    rewrite lookup_insert. destruct (decide (scene_number f = k')).
    + intros [= <-]. lia.
    + intros H'. apply Hacc in H'. lia.
Qed.

Section Run_total.
Variable lower : string → string.
Variable word_search : string → string → bool.
Variable character_map : list (string * list Z).
Variable all_scene_ids : list Z.
Variable scene_id_to_idx : gmap Z nat.
Variable frame_embeddings : list (list Q).
Variable frame_files : list path.

Hypothesis some_scene : frame_embeddings ≠ [].
Hypothesis one_embedding_per_frame :
  length frame_embeddings = length frame_files.
Hypothesis index_in_range :
  ∀ k v, scene_id_to_idx !! k = Some v → v < length frame_files.

Lemma select_total s chunk text text_emb r :
  (∀ e, e ∈ frame_embeddings → (0 < dot e text_emb)%Q) →
  ∃ res s2,
    select lower word_search s character_map all_scene_ids scene_id_to_idx
      frame_embeddings frame_files chunk text text_emb r = Ok res s2.
Proof.
  intros Hpos. unfold select.
  destruct (get_search_pool _ _ _ _ _ _) as [[pool ctx] s1].
  destruct (pool_indices_of_bound scene_id_to_idx pool frame_embeddings
              (length frame_files) index_in_range one_embedding_per_frame
              some_scene) as [Hne Hb].
  set (pi := pool_indices_of scene_id_to_idx pool frame_embeddings) in *.
  destruct (gather_total frame_embeddings pi) as (pe & -> & Hlen & Hin).
  { by rewrite one_embedding_per_frame. }
  destruct (final_scores_total (last_selected_frame_idx s1) text_emb pe pi
              Hlen) as (fs & Hfs & Hlfs & Hfpos).
  { intros e He. apply Hpos, Hin, He. }
  destruct (candidates_exist pi frame_files fs (sorted_indices fs) Hlfs)
    as [cs Hcs].
  { intros i ridx Hi. rewrite Forall_lookup in Hb. by eapply Hb. }
  { apply sorted_indices_lt. }
  pose proof (candidates_loop_spec s1 pi frame_files fs chunk (length pi)
                (sorted_indices fs) cs [] Hcs
                ltac:(simpl; unfold top_candidates_pool; lia)) as Hc.
  assert (Hcpos : Forall (λ c, (0 < score c)%Q) cs).
  { apply Forall_lookup. intros j c Hj.
    destruct (Forall2_lookup_r _ _ _ _ _ Hcs Hj) as (i & _ & Hi).
    apply candidate_at_Some in Hi as (ridx & f & sc & _ & _ & Hsc & ->).
    rewrite Forall_lookup in Hfpos. by eapply Hfpos. }
  destruct (choose_total pi frame_files fs
              (take (top_candidates_pool - 0) (filter (survives s1 chunk (length pi)) cs)) r)
    as [chosen Hch]; [done| |done| |].
  { intros ->. destruct pi; simpl in *; [done|lia]. }
  { apply Forall_take, Forall_forall. intros c Hin'.
    apply list_elem_of_filter in Hin' as [_ Hin'].
    rewrite Forall_forall in Hcpos. by apply Hcpos. }
  assert (Hsel : select_candidate s1 text_emb pe pi frame_files chunk r
                 = inr chosen).
  { unfold select_candidate, candidates_of. rewrite Hfs. cbn [rbind].
    rewrite Hc. cbn [rbind app length]. exact Hch. }
  unfold find_best_match_with_rotation. rewrite Hsel.
  apply select_candidate_inv in Hsel as (_ & _ & _ & _ & (f & Hf & _) & _).
  unfold index. rewrite Hf. eauto.
Qed.

Lemma match_loop_total rand : ∀ segments s chunk acc,
  (∀ text text_emb e, (text, text_emb) ∈ segments →
     e ∈ frame_embeddings → (0 < dot e text_emb)%Q) →
  ∃ results sf,
    match_loop lower word_search s character_map all_scene_ids
      scene_id_to_idx frame_embeddings frame_files rand chunk segments acc
    = Ok results sf.
Proof.
  induction segments as [|[text emb] segments IH]; intros s chunk acc Hpos;
    simpl; [eauto|].
  destruct (select_total s chunk text emb (rand chunk)) as (res & s2 & ->).
  { intros e He. eapply Hpos; [by left|done]. }
  apply IH. intros t te e Hin He. eapply Hpos; [by right|done].
Qed.

End Run_total.

(** ** How a run over a consistent index can end

    With at least one embedding and one embedding per frame file, the run
    returns or raises the [ValueError] of [random.choices]; nothing else
    can stop it. *)

Lemma random_choices_cases {A} (population : list A) ws r :
  population ≠ [] → length ws = length population →
  (∃ x, random_choices population ws r = inr x ∧ x ∈ population)
  ∨ random_choices population ws r = inl ValueError_weights_total.
Proof.
  intros Hne Hlen. unfold random_choices, rbind, index.
  assert (Hn : 0 < length population) by (destruct population; simpl; [done|lia]).
  destruct (lookup_lt_is_Some_2 (accumulate ws) (length (accumulate ws) - 1))
    as [total Ht]. { rewrite length_accumulate. lia. }
  rewrite Ht.
  destruct (Qle_bool total 0); [by right|left].
  pose proof (bisect_loop_bound (accumulate ws) (r * total)%Q
                (length population - 1 - 0) 0 (length population - 1)
                ltac:(lia)) as Hb.
  unfold bisect.
  destruct (lookup_lt_is_Some_2 population
              (bisect_loop (length population - 1 - 0) (accumulate ws)
                 (r * total) 0 (length population - 1))) as [x Hx]; [lia|].
  rewrite Hx. exists x. split; [done|]. by eapply list_elem_of_lookup_2.
Qed.

Lemma final_scores_of_total last text_emb pe pi :
  length pe = length pi →
  ∃ fs, final_scores_of last text_emb pe pi = inr fs ∧ length fs = length pi.
Proof.
  intros Hlen. destruct last as [last|].
  - destruct (final_scores_of_Some last text_emb pe pi Hlen)
      as (fs & Hr & Hl & _). eauto.
  - exists (base_scores text_emb pe). split; [done|].
    by rewrite length_base_scores.
Qed.

Lemma choose_cases pi ff fs cands r :
  length fs = length pi → fs ≠ [] →
  Forall (λ i, i < length ff) pi →
  (∃ chosen, choose pi ff fs cands r = inr chosen)
  ∨ choose pi ff fs cands r = inl ValueError_weights_total.
Proof.
  intros Hlen Hne Hb. destruct cands as [|c cs]; cbn [choose].
  - left. destruct (argmax_spec fs Hne) as (b & -> & Hlt & _). cbn [rbind].
    unfold index.
    destruct (lookup_lt_is_Some_2 pi b ltac:(lia)) as [ridx Hr].
    rewrite Hr. cbn [rbind].
    destruct (lookup_lt_is_Some_2 fs b Hlt) as [sc ->]. cbn [rbind].
    rewrite Forall_lookup in Hb.
    destruct (lookup_lt_is_Some_2 ff ridx (Hb _ _ Hr)) as [f ->].
    cbn [rbind]. eauto.
  - destruct (random_choices_cases (c :: cs) (weights (c :: cs)) r)
      as [(x & Hx & _)|Hx]; [done|unfold weights; by rewrite length_map|..];
      eauto.
Qed.

Section Run_cases.
Variable lower : string → string.
Variable word_search : string → string → bool.
Variable character_map : list (string * list Z).
Variable all_scene_ids : list Z.
Variable scene_id_to_idx : gmap Z nat.
Variable frame_embeddings : list (list Q).
Variable frame_files : list path.

Hypothesis some_scene : frame_embeddings ≠ [].
Hypothesis one_embedding_per_frame :
  length frame_embeddings = length frame_files.
Hypothesis index_in_range :
  ∀ k v, scene_id_to_idx !! k = Some v → v < length frame_files.

Lemma select_cases s chunk text text_emb r :
  (∃ res s2,
    select lower word_search s character_map all_scene_ids scene_id_to_idx
      frame_embeddings frame_files chunk text text_emb r = Ok res s2)
  ∨ ∃ s1,
    select lower word_search s character_map all_scene_ids scene_id_to_idx
      frame_embeddings frame_files chunk text text_emb r
    = Raise ValueError_weights_total s1.
Proof.
  unfold select.
  destruct (get_search_pool _ _ _ _ _ _) as [[pool ctx] s1].
  destruct (pool_indices_of_bound scene_id_to_idx pool frame_embeddings
              (length frame_files) index_in_range one_embedding_per_frame
              some_scene) as [Hne Hb].
  set (pi := pool_indices_of scene_id_to_idx pool frame_embeddings) in *.
  destruct (gather_total frame_embeddings pi) as (pe & -> & Hlen & Hin).
  { by rewrite one_embedding_per_frame. }
  destruct (final_scores_of_total (last_selected_frame_idx s1) text_emb pe pi
              Hlen) as (fs & Hfs & Hlfs).
  destruct (candidates_exist pi frame_files fs (sorted_indices fs) Hlfs)
    as [cs Hcs].
  { intros i ridx Hi. rewrite Forall_lookup in Hb. by eapply Hb. }
  { apply sorted_indices_lt. }
  pose proof (candidates_loop_spec s1 pi frame_files fs chunk (length pi)
                (sorted_indices fs) cs [] Hcs
                ltac:(simpl; unfold top_candidates_pool; lia)) as Hc.
  assert (Hsc : select_candidate s1 text_emb pe pi frame_files chunk r
    = choose pi frame_files fs
        (take (top_candidates_pool - 0)
           (filter (survives s1 chunk (length pi)) cs)) r).
  { unfold select_candidate, candidates_of. rewrite Hfs. cbn [rbind].
    rewrite Hc. cbn [rbind app length]. done. }
  unfold find_best_match_with_rotation. rewrite Hsc.
  destruct (choose_cases pi frame_files fs
              (take (top_candidates_pool - 0)
                 (filter (survives s1 chunk (length pi)) cs)) r)
    as [[chosen Hch]|Hch]; [done| |done|..].
  { intros ->. destruct pi; simpl in *; [done|lia]. }
  - left. rewrite Hch. rewrite <- Hsc in Hch.
    apply select_candidate_inv in Hch as (_ & _ & _ & _ & (f & Hf & _) & _).
    unfold index. rewrite Hf. eauto.
  - right. rewrite Hch. eauto.
Qed.

Lemma match_loop_cases rand : ∀ segments s chunk acc,
  (∃ results sf,
    match_loop lower word_search s character_map all_scene_ids
      scene_id_to_idx frame_embeddings frame_files rand chunk segments acc
    = Ok results sf)
  ∨ ∃ s1,
    match_loop lower word_search s character_map all_scene_ids
      scene_id_to_idx frame_embeddings frame_files rand chunk segments acc
    = Raise ValueError_weights_total s1.
Proof.
  induction segments as [|[text emb] segments IH]; intros s chunk acc;
    simpl; [eauto|].
  destruct (select_cases s chunk text emb (rand chunk))
    as [(res & s2 & ->)|(s1 & ->)]; [apply IH|eauto].
Qed.

End Run_cases.



(** C9 -- output length.  The input of one scene with the unit-norm
    embedding (0, 1) and one segment with the unit-norm text embedding
    (1, 0) is valid, and the run produces no result on it: the only sampling
    weight is the score 0, [random.choices] raises on a total that is not
    positive, and the run raises with it, at the first segment and with the
    matcher as it was.  Every run that does return has exactly one result
    per narration segment, in input order: result [k] carries chunk index
    [k] and the text of segment [k]. *)
Theorem run_raises_on_orthogonal_embeddings :
  (∀ normalize rand,
     match_audio_to_frames ascii_lower ascii_word_search normalize
       init_matcher [("a", [1; 0]%Q)] [] [[0; 1]]%Q one_frame rand
     = Raise ValueError_weights_total init_matcher)
  ∧ (∀ lower word_search normalize s segments character_map
       frame_embeddings frame_files rand results sf,
       match_audio_to_frames lower word_search normalize s segments
         character_map frame_embeddings frame_files rand = Ok results sf →
       length results = length segments
       ∧ ∀ k res, results !! k = Some res →
           chunk_index res = k
           ∧ ∃ text_emb, segments !! k = Some (audio_text res, text_emb)).
Proof.
  split.
  - intros normalize rand. vm_compute. reflexivity.
  - intros lower word_search normalize s segments character_map
      frame_embeddings frame_files rand results sf.
    unfold match_audio_to_frames.
    destruct (normalized_embeddings normalize frame_embeddings)
      as [e|embs]; [done|].
    destruct (build_scene_index _ _ _) as [sidx all]. intros Hrun.
    apply match_loop_results in Hrun as (new & -> & Hl & Hnew).
    split; [done|]. intros k res Hk. simpl in Hk. by apply Hnew.
Qed.

Lemma run_raises_on_orthogonal_embeddings_witness :
  length demo_results = length four_segments
  ∧ ∀ k res, demo_results !! k = Some res →
      chunk_index res = k
      ∧ ∃ text_emb, four_segments !! k = Some (audio_text res, text_emb).
Proof.
  apply (proj2 run_raises_on_orthogonal_embeddings ascii_lower
           ascii_word_search (λ v, v) init_matcher four_segments []
           [[1]]%Q one_frame (λ _, 1 # 2) demo_results demo_final).
  vm_compute. reflexivity.
Defined.

(** * Further properties of the matcher *)

(** ** The translation map *)

Lemma dict_get_set {V} k k' (v : V) d :
  dict_get k' (dict_set k v d)
  = if decide (k = k') then Some v else dict_get k' d.
Proof.
  induction d as [|[k0 v0] d IH]; simpl.
  - destruct (decide (k = k')); done.
  - destruct (decide (k0 = k)) as [->|Hne]; simpl.
    + destruct (decide (k = k')); done.
    + destruct (decide (k0 = k')) as [->|Hne'].
      * rewrite decide_False by done. done.
      * exact IH.
Qed.

Lemma dict_set_keys {V} k (v : V) d :
  map fst (dict_set k v d)
  = if decide (k ∈ map fst d) then map fst d else map fst d ++ [k].
Proof.
  induction d as [|[k0 v0] d IH]; cbn [dict_set map fst].
  - destruct (decide (k ∈ [])) as [Hin|_]; [by apply elem_of_nil in Hin|done].
  - destruct (decide (k0 = k)) as [->|Hne]; cbn [map fst].
    + destruct (decide (k ∈ k :: map fst d)) as [_|Hin]; [done|].
      exfalso. apply Hin. by left.
    + rewrite IH. destruct (decide (k ∈ map fst d)) as [Hin|Hnin];
        destruct (decide (k ∈ k0 :: map fst d)) as [Hin'|Hin']; try done.
      * exfalso. apply Hin'. by right.
      * apply elem_of_cons in Hin' as [->|Hin']; done.
Qed.

Lemma dict_set_NoDup {V} k (v : V) d :
  NoDup (map fst d) → NoDup (map fst (dict_set k v d)).
Proof.
  intros Hnd. rewrite dict_set_keys. destruct (decide _) as [|Hnin]; [done|].
  apply NoDup_app. split; [done|]. split; [|apply NoDup_singleton].
  intros x Hx Hx'. apply list_elem_of_singleton in Hx'. by subst.
Qed.

Lemma dict_get_Some {V} k (v : V) d :
  dict_get k d = Some v → (k, v) ∈ d.
Proof.
  induction d as [|[k0 v0] d IH]; simpl; [done|].
  destruct (decide (k0 = k)) as [->|Hne].
  - intros [= ->]. by left.
  - intros H. right. by apply IH.
Qed.

Lemma dict_get_NoDup {V} k (v : V) d :
  NoDup (map fst d) → (k, v) ∈ d → dict_get k d = Some v.
Proof.
  induction d as [|[k0 v0] d IH]; simpl; intros Hnd Hin.
  - by apply elem_of_nil in Hin.
  - apply NoDup_cons in Hnd as [Hk0 Hnd].
    apply elem_of_cons in Hin as [[= -> ->]|Hin].
    + by rewrite decide_True.
    + destruct (decide (k0 = k)) as [->|Hne]; [|by apply IH].
      exfalso. apply Hk0. apply list_elem_of_fmap. by exists (k, v).
Qed.

Section Translation_facts.
Variable lower : string → string.

Lemma add_variations_entries main vars : ∀ tr,
  add_variations lower main vars tr
  = foldl (λ tr e, dict_set e.1 e.2 tr) tr
      ((λ v, (lower v, main)) <$> vars).
Proof.
  unfold add_variations. induction vars as [|v vars IH]; intros tr; simpl;
    [done|]. apply IH.
Qed.

Lemma build_translation_map_entries char_names_dict : ∀ tr,
  foldl (λ tr item,
           add_variations lower item.1 (aliases item.2)
             (add_variations lower item.1 (english item.2)
                (add_variations lower item.1 (russian item.2) tr)))
        tr char_names_dict
  = foldl (λ tr e, dict_set e.1 e.2 tr) tr
      (translation_entries lower char_names_dict).
Proof.
  unfold translation_entries.
  induction char_names_dict as [|[main vars] d IH]; intros tr; [done|].
  cbn [foldl mbind list_bind fst snd]. rewrite IH.
  rewrite foldl_app, !fmap_app, !foldl_app, !add_variations_entries. done.
Qed.

Lemma foldl_dict_set_get k : ∀ entries (tr : list (string * string)),
  dict_get k (foldl (λ tr e, dict_set e.1 e.2 tr) tr entries)
  = match last (filter (λ e, e.1 = k) entries) with
    | Some e => Some e.2
    | None => dict_get k tr
    end.
Proof.
  induction entries as [|[k0 v0] entries IH]; intros tr; simpl; [done|].
  rewrite IH, dict_get_set, filter_cons. cbn [fst snd].
  destruct (decide (k0 = k)) as [->|Hne]; [|done].
  rewrite last_cons. by destruct (last (filter _ entries)).
Qed.

Lemma foldl_dict_set_NoDup : ∀ entries (tr : list (string * string)),
  NoDup (map fst tr) →
  NoDup (map fst (foldl (λ tr e, dict_set e.1 e.2 tr) tr entries)).
Proof.
  induction entries as [|e entries IH]; intros tr Hnd; simpl; [done|].
  apply IH. by apply dict_set_NoDup.
Qed.

Lemma build_translation_map_last_assignment
    (char_names_dict : list (string * variations)) :
  NoDup (map fst (build_translation_map lower char_names_dict))
  ∧ ∀ k, dict_get k (build_translation_map lower char_names_dict)
         = snd <$> last (filter (λ e, e.1 = k)
                           (translation_entries lower char_names_dict)).
Proof.
  unfold build_translation_map. rewrite build_translation_map_entries. split.
  - apply foldl_dict_set_NoDup. constructor.
  - intros k. rewrite foldl_dict_set_get. by destruct (last _).
Qed.


End Translation_facts.

(** ** The names found in a text *)

Section Tracker_names.
Variable lower : string → string.
Variable word_search : string → string → bool.

Lemma scan_translations_spec text_lower known : ∀ items found,
  NoDup found →
  let found' := scan_translations word_search text_lower known items found in
  NoDup found'
  ∧ (∃ more, found' = found ++ more)
  ∧ ∀ c, c ∈ found' ↔
      c ∈ found
      ∨ (c ∈ known
         ∧ ∃ rus_name, (rus_name, c) ∈ items
             ∧ word_search rus_name text_lower = true).
Proof.
  induction items as [|[rus eng] items IH]; intros found Hnd; cbn [scan_translations].
  - split; [done|]. split; [exists []; by rewrite app_nil_r|].
    intros c. split; [by left|]. intros [H|(_ & r & Hr & _)]; [done|].
    by apply elem_of_nil in Hr.
  - destruct (word_search rus text_lower) eqn:Hw.
    + destruct (bool_decide (eng ∈ known) && negb (bool_decide (eng ∈ found)))
        eqn:Hb.
      * apply andb_true_iff in Hb as [Hk Hf].
        apply bool_decide_eq_true in Hk.
        apply negb_true_iff, bool_decide_eq_false in Hf.
        destruct (IH (found ++ [eng])) as (H1 & (more & H2) & H3).
        { apply NoDup_app. split; [done|]. split.
          - intros x Hx Hx'. apply list_elem_of_singleton in Hx'. by subst.
          - apply NoDup_singleton. }
        split; [done|]. split.
        { exists (eng :: more). rewrite H2, <- app_assoc. done. }
        intros c. rewrite H3, elem_of_app, list_elem_of_singleton. split.
        -- intros [[H| ->]|(Hc & r & Hr & Hwr)]; [by left| |].
           ++ right. split; [done|]. exists rus. split; [by left|done].
           ++ right. split; [done|]. exists r. split; [by right|done].
        -- intros [H|(Hc & r & Hr & Hwr)]; [by left; left|].
           apply elem_of_cons in Hr as [[= -> ->]|Hr]; [by left; right|].
           right. eauto.
      * destruct (IH found Hnd) as (H1 & H2 & H3).
        split; [done|]. split; [done|]. intros c. rewrite H3. split.
        -- intros [H|(Hc & r & Hr & Hwr)]; [by left|].
           right. split; [done|]. exists r. split; [by right|done].
        -- intros [H|(Hc & r & Hr & Hwr)]; [by left|].
           apply elem_of_cons in Hr as [[= -> ->]|Hr]; [|right; eauto].
           left. apply andb_false_iff in Hb as [Hb|Hb].
           ++ apply bool_decide_eq_false in Hb. done.
           ++ apply negb_false_iff, bool_decide_eq_true in Hb. done.
    + destruct (IH found Hnd) as (H1 & H2 & H3).
      split; [done|]. split; [done|]. intros c. rewrite H3. split.
      * intros [H|(Hc & r & Hr & Hwr)]; [by left|].
        right. split; [done|]. exists r. split; [by right|done].
      * intros [H|(Hc & r & Hr & Hwr)]; [by left|].
        apply elem_of_cons in Hr as [[= -> ->]|Hr]; [congruence|right; eauto].
Qed.

Lemma scan_known_spec text_lower : ∀ chars found,
  NoDup found →
  let found' := scan_known lower word_search text_lower chars found in
  NoDup found'
  ∧ (∃ more, found' = found ++ more)
  ∧ ∀ c, c ∈ found' ↔
      c ∈ found
      ∨ (c ∈ chars ∧ word_search (lower c) text_lower = true).
Proof.
  induction chars as [|char chars IH]; intros found Hnd; cbn [scan_known].
  - split; [done|]. split; [exists []; by rewrite app_nil_r|].
    intros c. split; [by left|]. intros [H|[Hc _]]; [done|].
    by apply elem_of_nil in Hc.
  - destruct (word_search (lower char) text_lower
              && negb (bool_decide (char ∈ found))) eqn:Hb.
    + apply andb_true_iff in Hb as [Hw Hf].
      apply negb_true_iff, bool_decide_eq_false in Hf.
      destruct (IH (found ++ [char])) as (H1 & (more & H2) & H3).
      { apply NoDup_app. split; [done|]. split.
        - intros x Hx Hx'. apply list_elem_of_singleton in Hx'. by subst.
        - apply NoDup_singleton. }
      split; [done|]. split.
      { exists (char :: more). rewrite H2, <- app_assoc. done. }
      intros c. rewrite H3, elem_of_app, list_elem_of_singleton. split.
      * intros [[H| ->]|[Hc Hwc]]; [by left| |].
        -- right. split; [by left|done].
        -- right. split; [by right|done].
      * intros [H|[Hc Hwc]]; [by left; left|].
        apply elem_of_cons in Hc as [->|Hc]; [by left; right|].
        right. done.
    + destruct (IH found Hnd) as (H1 & H2 & H3).
      split; [done|]. split; [done|]. intros c. rewrite H3. split.
      * intros [H|[Hc Hwc]]; [by left|]. right. split; [by right|done].
      * intros [H|[Hc Hwc]]; [by left|].
        apply elem_of_cons in Hc as [->|Hc]; [|by right].
        left. apply andb_false_iff in Hb as [Hb|Hb]; [congruence|].
        apply negb_false_iff, bool_decide_eq_true in Hb. done.
Qed.



End Tracker_names.

(** ** The scene index and the validation of the character map *)

Lemma build_scene_index_inv : ∀ rest done acc,
  (∀ k v, acc.1 !! k = Some v ↔ last_frame_of_scene done k v) →
  NoDup acc.2 →
  (∀ k, k ∈ acc.2 ↔ is_Some (acc.1 !! k)) →
  let out := build_scene_index (length done) rest acc in
  (∀ k v, out.1 !! k = Some v ↔ last_frame_of_scene (done ++ rest) k v)
  ∧ NoDup out.2
  ∧ (∀ k, k ∈ out.2 ↔ is_Some (out.1 !! k)).
Proof.
  induction rest as [|f rest IH]; intros done acc Hm Hnd Hk;
    cbn [build_scene_index].
  - rewrite app_nil_r. done.
  - specialize (IH (done ++ [f])
      (<[scene_number f := length done]> acc.1,
       if decide (is_Some (acc.1 !! scene_number f)) then acc.2
       else acc.2 ++ [scene_number f])).
    rewrite length_app, Nat.add_1_r, <- app_assoc in IH. apply IH; cbn [fst snd].
    + intros k v. rewrite lookup_insert.
      destruct (decide (scene_number f = k)) as [<-|Hne].
      * split.
        -- intros [= <-]. split.
           ++ exists f. split; [|done].
              by rewrite lookup_app_r, Nat.sub_diag by lia.
           ++ intros v' f' Hv' _. apply lookup_lt_Some in Hv'.
              rewrite length_app in Hv'. simpl in Hv'. lia.
        -- intros [(f0 & Hf0 & Hs0) Hlast]. f_equal.
           pose proof (lookup_lt_Some _ _ _ Hf0) as Hlt.
           rewrite length_app in Hlt. simpl in Hlt.
           assert (length done ≤ v); [|lia].
           apply (Hlast (length done) f); [|done].
           by rewrite lookup_app_r, Nat.sub_diag by lia.
      * rewrite Hm. unfold last_frame_of_scene. split.
        -- intros [(f0 & Hf0 & Hs0) Hlast]. split.
           ++ exists f0. split; [|done]. rewrite lookup_app_l; [done|].
              by eapply lookup_lt_Some.
           ++ intros v' f' Hv' Hs'.
              destruct (decide (v' < length done)) as [Hlt|Hge].
              ** rewrite lookup_app_l in Hv' by done. eauto.
              ** rewrite lookup_app_r in Hv' by lia.
                 destruct (v' - length done) as [|n]; simpl in Hv'; [|done].
                 inversion Hv'; subst. done.
        -- intros [(f0 & Hf0 & Hs0) Hlast].
           assert (Hv : v < length done).
           { destruct (decide (v < length done)) as [|Hge]; [done|].
             rewrite lookup_app_r in Hf0 by lia.
             destruct (v - length done) as [|n]; simpl in Hf0; [|done].
             inversion Hf0; subst. done. }
           rewrite lookup_app_l in Hf0 by done. split; [eauto|].
           intros v' f' Hv' Hs'. apply (Hlast v' f'); [|done].
           rewrite lookup_app_l; [done|]. by eapply lookup_lt_Some.
    + destruct (decide _) as [Hin|Hnin]; [done|].
      apply NoDup_app. split; [done|]. split; [|apply NoDup_singleton].
      intros x Hx Hx'. apply list_elem_of_singleton in Hx'. subst x.
      apply Hk in Hx. done.
    + intros k. rewrite lookup_insert.
      destruct (decide (scene_number f = k)) as [<-|Hne].
      * split; [by eauto|]. intros _.
        destruct (decide _) as [Hin|Hnin]; [by apply Hk|].
        apply elem_of_app. right. by apply list_elem_of_singleton.
      * destruct (decide (is_Some (acc.1 !! scene_number f))) as [Hin|Hnin];
          [by apply Hk|].
        rewrite elem_of_app, list_elem_of_singleton, Hk. split; [|by left].
        intros [H|H]; [done|]. by subst.
Qed.



(** ** The frame the selector returns and the state it leaves *)

Lemma last_used_of_commit s chosen cur nm :
  last_used_of (commit s chosen cur) nm
  = if decide (frame_name chosen = nm) then Z.of_nat cur
    else last_used_of s nm.
Proof.
  unfold last_used_of at 1. cbn [commit frame_last_used_at].
  rewrite lookup_insert. by destruct (decide _).
Qed.

(** The winner sits at a position of the pool and carries the final score
    of that position. *)
Lemma select_candidate_position s text_emb pe pi ff cur r chosen :
  select_candidate s text_emb pe pi ff cur r = inr chosen →
  ∃ fs i,
    final_scores_of (last_selected_frame_idx s) text_emb pe pi = inr fs
    ∧ pi !! i = Some (real_idx chosen) ∧ fs !! i = Some (score chosen).
Proof.
  unfold select_candidate, rbind.
  destruct (final_scores_of _ _ _ _) as [|fs]; [done|].
  destruct (candidates_of s pi ff fs cur) as [|cands] eqn:Hc; [done|].
  intros Hch. exists fs.
  assert (HF : Forall (λ c, ∃ i, pi !! i = Some (real_idx c)
                             ∧ fs !! i = Some (score c)) cands).
  { eapply candidates_loop_Forall; [|constructor|exact Hc].
    intros i ridx f sc Hr _ Hsc _. by exists i. }
  destruct cands as [|c cs].
  - cbn [choose] in Hch. unfold rbind, index in Hch.
    destruct (argmax fs) as [|b]; [done|].
    destruct (pi !! b) as [ridx|] eqn:Hr; [|done].
    destruct (fs !! b) as [sc|] eqn:Hsc; [|done].
    destruct (ff !! ridx) as [f|]; [|done].
    inversion Hch; subst. by exists b.
  - cbn [choose] in Hch. apply random_choices_elem in Hch.
    rewrite Forall_forall in HF. destruct (HF chosen Hch) as [i Hi].
    by exists i.
Qed.



(** ** The ledger along a run *)

Section Run_ledger.
Variable lower : string → string.
Variable word_search : string → string → bool.
Variable character_map : list (string * list Z).
Variable all_scene_ids : list Z.
Variable scene_id_to_idx : gmap Z nat.
Variable frame_embeddings : list (list Q).
Variable frame_files : list path.

#[local] Abbreviation select_ := (select lower word_search).
#[local] Abbreviation survivors_ s :=
  (survivors_of lower word_search s character_map all_scene_ids
     scene_id_to_idx frame_embeddings frame_files).
#[local] Abbreviation loop s :=
  (match_loop lower word_search s character_map all_scene_ids
     scene_id_to_idx frame_embeddings frame_files).

Lemma last_used_of_get_search_pool s text nm :
  last_used_of
    (get_search_pool lower word_search s text character_map
       all_scene_ids).2 nm
  = last_used_of s nm.
Proof.
  unfold last_used_of.
  by destruct (get_search_pool_ledger lower word_search s text
                 character_map all_scene_ids) as (_ & -> & _).
Qed.

(** One turn of the loop, on the side of the cooldown: the last-used
    position of the chosen frame becomes the chunk and no other changes;
    the pool is not empty; and the chosen frame passed the filter unless
    no candidate survived it. *)
Lemma select_inv_cooldown s chunk text text_emb r res s2 :
  select_ s character_map all_scene_ids scene_id_to_idx frame_embeddings
    frame_files chunk text text_emb r = Ok res s2 →
  (∀ nm, last_used_of s2 nm
         = if decide (name (frame_file res) = nm) then Z.of_nat chunk
           else last_used_of s nm)
  ∧ 1 ≤ search_pool_size res
  ∧ (survivors_ s chunk text text_emb = inr []
     ∨ passes_filter s (name (frame_file res)) chunk (search_pool_size res)
       = true).
Proof.
  unfold select, survivors_of.
  pose proof (usage_count_of_get_search_pool lower word_search character_map
                all_scene_ids s text) as Hu.
  pose proof (last_used_of_get_search_pool s text) as Hl.
  destruct (get_search_pool _ _ _ _ _ _) as [[pool ctx] s1].
  cbn [fst snd] in *. unfold rbind.
  destruct (gather _ _) as [|pe] eqn:Hg; [done|].
  destruct (pool_indices_of scene_id_to_idx pool frame_embeddings)
    as [|p0 pi'] eqn:Hpi.
  { simpl in Hg. inversion Hg; subst pe.
    by rewrite find_best_match_empty_pool. }
  unfold find_best_match_with_rotation.
  destruct (select_candidate _ _ _ _ _ _ _) as [|chosen] eqn:Hsel; [done|].
  apply select_candidate_inv in Hsel
    as (fs & cands & Hfs & Hc & (f & Hf & Hn) & Hcases).
  unfold index. rewrite Hf. intros [= <- <-]. cbn.
  split.
  - intros nm. rewrite last_used_of_commit, Hn, Hl. done.
  - split; [lia|]. rewrite Hfs, Hc.
    destruct Hcases as [->|[_ Hp]]; [by left|]. right.
    rewrite Hn in Hp. unfold passes_filter in *.
    rewrite <- Hu, <- Hl. exact Hp.
Qed.


(** Every result of a run names a frame of the list, and its pool was not
    empty. *)
Lemma match_loop_frames rand : ∀ segments s chunk acc results sf,
  loop s rand chunk segments acc = Ok results sf →
  ∃ new, results = acc ++ new
    ∧ Forall (λ res, frame_files !! frame_index res = Some (frame_file res)
                     ∧ 1 ≤ search_pool_size res) new.
Proof.
  induction segments as [|[text emb] segments IH];
    intros s chunk acc results sf; simpl.
  - intros [= <- <-]. exists []. by rewrite app_nil_r.
  - destruct (select _ _ _ _ _ _ _ _ _ _ _ _) as [res s'|] eqn:Hsel; [|done].
    intros Hl. apply IH in Hl as (new & -> & Hnew).
    pose proof Hsel as Hsel'.
    apply (select_inv lower word_search) in Hsel as (_ & _ & Hf & _).
    apply select_inv_cooldown in Hsel' as (_ & Hp & _).
    exists (res :: new). rewrite <- app_assoc. split; [done|].
    constructor; done.
Qed.

(** The last-used position of a frame name that a result of the run
    chose is at least the chunk of that result. *)
Lemma match_loop_last_used rand : ∀ segments s chunk acc results sf,
  loop s rand chunk segments acc = Ok results sf →
  (∀ res, res ∈ acc →
     (Z.of_nat (chunk_index res) <= last_used_of s (name (frame_file res)))%Z) →
  (∀ res, res ∈ acc → chunk_index res < chunk) →
  ∀ res, res ∈ results →
    (Z.of_nat (chunk_index res) <= last_used_of sf (name (frame_file res)))%Z.
Proof.
  induction segments as [|[text emb] segments IH];
    intros s chunk acc results sf; simpl.
  - by intros [= <- <-].
  - destruct (select _ _ _ _ _ _ _ _ _ _ _ _) as [res s'|] eqn:Hsel; [|done].
    intros Hl Hinv Hlt. eapply IH; [exact Hl| |].
    + pose proof Hsel as Hsel'.
      apply (select_inv lower word_search) in Hsel as (Hc & _).
      apply select_inv_cooldown in Hsel' as (Hlu & _).
      intros res' Hin. rewrite Hlu.
      apply elem_of_app in Hin as [Hin|Hin].
      * destruct (decide _); [|by apply Hinv].
        specialize (Hlt _ Hin). lia.
      * apply list_elem_of_singleton in Hin. subst res'.
        rewrite decide_True by done. lia.
    + apply (select_inv lower word_search) in Hsel as (Hc & _).
      intros res' Hin. apply elem_of_app in Hin as [Hin|Hin].
      * specialize (Hlt _ Hin). lia.
      * apply list_elem_of_singleton in Hin. subst res'. lia.
Qed.


End Run_ledger.



(** ** The results of a run *)



(** ** [normalize_vector] as a projection *)

